(** * Verification of the webhook-forwarding endpoint client

    Shallow embedding of [pkg/proxy/endpoint.go] (package [proxy] of the
    Stripe CLI) together with the parts of the Go standard library the file
    calls ([strings], [regexp], [net/textproto], [net/http]).
  
    Conventions of the embedding:
    - a Go [string] is a sequence of bytes: Rocq's [string] of [ascii];
    - a Go [map[string]T] is a [gmap string T]; reading a missing key gives
      the zero value of [T];
    - a Go pointer or interface value that may be [nil] is an [option];
    - a run-time panic and a goroutine that blocks for ever are results of
      their own ([Panic], [Blocked]), never silently dropped. *)

From Stdlib Require Import ZArith NArith Ascii String List.
From stdpp Require Import base option list gmap strings fin_maps.

Local Open Scope string_scope.
Local Open Scope list_scope.

(** ** Bytes and strings *)

(** The numeric value of a byte. *)
Definition code (c : ascii) : N := N_of_ascii c.

(** The bytes of a string, in order. *)
Fixpoint bytes (s : string) : list ascii :=
  match s with
  | EmptyString => []
  | String c r => c :: bytes r
  end.

(** ** Results of Go code that may fault *)

Inductive Fault : Type :=
  | IndexOutOfRange (index len : nat)   (* "index out of range [i] with length n" *)
  | NilDereference.                     (* "invalid memory address or nil pointer dereference" *)

Inductive Res (A : Type) : Type :=
  | Done (a : A)          (* the code ran to its end *)
  | Panic (f : Fault)     (* a run-time panic unwinds the goroutine *)
  | Blocked.              (* the goroutine blocks for ever *)
Arguments Done {A} a.
Arguments Panic {A} f.
Arguments Blocked {A}.

Definition res_bind {A B} (r : Res A) (k : A → Res B) : Res B :=
  match r with
  | Done a => k a
  | Panic f => Panic f
  | Blocked => Blocked
  end.

(** The index expression [l[i]] on a slice: a run-time panic out of range. *)
Definition index {A} (l : list A) (i : nat) : Res A :=
  match l !! i with
  | Some x => Done x
  | None => Panic (IndexOutOfRange i (length l))
  end.

(** ** Package [regexp] (the fragment the client uses) *)

Module regexp.

(** A compiled pattern of the shape [[lo-hi]+]: one or more bytes of a
    range.  The only pattern of the file, ["[\x00-\x1f]+"], has this shape.
    Go's engine matches runes; every byte of a multi-byte or invalid UTF-8
    sequence is at least 0x80, so for a range below 0x80 matching bytes is
    the same. *)
Inductive Regexp : Type := ClassPlus (lo hi : N).

Definition in_class (re : Regexp) (c : ascii) : bool :=
  match re with
  | ClassPlus lo hi => (lo <=? code c)%N && (code c <=? hi)%N
  end.

(** [re.ReplaceAllString(src, repl)]: every (leftmost, longest) match is
    replaced by [repl]; a match of [[lo-hi]+] is a maximal run of bytes of
    the class.  [in_run] tells that the previous byte was in the run being
    replaced. *)
Fixpoint replace_from (re : Regexp) (in_run : bool) (src repl : string) : string :=
  match src with
  | EmptyString => EmptyString
  | String c rest =>
      if in_class re c then
        if in_run then replace_from re true rest repl
        else repl +:+ replace_from re true rest repl
      else String c (replace_from re false rest repl)
  end.

Definition ReplaceAllString (re : Regexp) (src repl : string) : string :=
  replace_from re false src repl.

End regexp.

(** ** Package [strings] (the fragment the client uses) *)

Module strings.

(** [strings.ToLower] on ASCII letters.  On other runes Go applies
    [unicode.ToLower]; no rune outside ASCII is mapped to one of the
    letters h, o, s, t, so the comparison of the result with ["host"], the
    only use in the file, is decided by the ASCII letters alone. *)
Definition lower_byte (c : ascii) : ascii :=
  if (65 <=? code c)%N && (code c <=? 90)%N
  then ascii_of_N (code c + 32) else c.

Fixpoint ToLower (s : string) : string :=
  match s with
  | EmptyString => EmptyString
  | String c r => String (lower_byte c) (ToLower r)
  end.

(** [unicode.IsSpace] on UTF-8 encoded text.  One byte: tab, line feed,
    vertical tab, form feed, carriage return, space. *)
Definition isSpace1 (a : ascii) : bool :=
  ((9 <=? code a)%N && (code a <=? 13)%N) || (code a =? 32)%N.

(** Two bytes: U+0085 (C2 85) and U+00A0 (C2 A0). *)
Definition isSpace2 (a b : ascii) : bool :=
  (code a =? 194)%N && ((code b =? 133)%N || (code b =? 160)%N).

(** Three bytes: U+1680 (E1 9A 80), U+2000..U+200A (E2 80 80..8A),
    U+2028, U+2029 (E2 80 A8, A9), U+202F (E2 80 AF), U+205F (E2 81 9F),
    U+3000 (E3 80 80). *)
Definition isSpace3 (a b c : ascii) : bool :=
  ((code a =? 225)%N && (code b =? 154)%N && (code c =? 128)%N)
  || ((code a =? 226)%N && (code b =? 128)%N
      && (((128 <=? code c)%N && (code c <=? 138)%N)
          || (code c =? 168)%N || (code c =? 169)%N || (code c =? 175)%N))
  || ((code a =? 226)%N && (code b =? 129)%N && (code c =? 159)%N)
  || ((code a =? 227)%N && (code b =? 128)%N && (code c =? 128)%N).

(** Runes dropped from the front while they pass a test; the tests tell a
    rune of one, two or three bytes by its encoding. *)
Fixpoint drop_runes (p1 : ascii → bool) (p2 : ascii → ascii → bool)
    (p3 : ascii → ascii → ascii → bool) (s : list ascii) : list ascii :=
  match s with
  | [] => s
  | a :: r1 =>
      if p1 a then drop_runes p1 p2 p3 r1 else
      match r1 with
      | [] => s
      | b :: r2 =>
          if p2 a b then drop_runes p1 p2 p3 r2 else
          match r2 with
          | [] => s
          | c :: r3 => if p3 a b c then drop_runes p1 p2 p3 r3 else s
          end
      end
  end.

(** Leading white space: the first rune is decoded and dropped while it is
    white space.  An invalid or over-long sequence decodes to U+FFFD, which is
    not white space, so only the exact encodings above are dropped. *)
Definition trim_left (s : list ascii) : list ascii :=
  drop_runes isSpace1 isSpace2 isSpace3 s.

(** Trailing white space, read backwards: the last rune is decoded from the
    nearest byte that starts a rune, so a text ends with a white space rune
    exactly when it ends with one of the encodings. *)
Definition trim_right (s : list ascii) : list ascii :=
  rev (drop_runes isSpace1 (λ a b, isSpace2 b a) (λ a b c, isSpace3 c b a) (rev s)).

(** [strings.TrimSpace]: all leading and trailing white space removed. *)
Definition TrimSpace (s : string) : string :=
  string_of_list_ascii (trim_right (trim_left (bytes s))).

(** [strings.Cut] for a one-byte separator: the text before and after the
    first occurrence. *)
Fixpoint cut (s : string) (sep : ascii) : option (string * string) :=
  match s with
  | EmptyString => None
  | String c r =>
      if Ascii.eqb c sep then Some (EmptyString, r)
      else match cut r sep with
           | Some (before, after) => Some (String c before, after)
           | None => None
           end
  end.

(** [strings.SplitN(s, sep, n)] for a one-byte separator and [n >= 0]: at
    most [n] pieces, the last one the unsplit remainder; [n = 0] gives the
    nil slice. *)
Fixpoint SplitN (s : string) (sep : ascii) (n : nat) : list string :=
  match n with
  | 0 => []
  | 1 => [s]
  | S n' =>
      match cut s sep with
      | Some (before, after) => before :: SplitN after sep n'
      | None => [s]
      end
  end.

End strings.


(** ** Package [net/textproto] (header keys) *)

Module textproto.

(** [validHeaderFieldByte]: the [tchar] bytes of RFC 7230,
    ! # $ % & ' * + - . ^ _ ` | ~, digits and letters. *)
Definition validHeaderFieldByte (c : ascii) : bool :=
  let n := code c in
  ((n =? 33) || ((35 <=? n) && (n <=? 39)) || (n =? 42) || (n =? 43)
   || (n =? 45) || (n =? 46) || ((48 <=? n) && (n <=? 57))
   || ((65 <=? n) && (n <=? 90)) || ((94 <=? n) && (n <=? 122))
   || (n =? 124) || (n =? 126))%N.

Fixpoint all_valid (s : string) : bool :=
  match s with
  | EmptyString => true
  | String c r => validHeaderFieldByte c && all_valid r
  end.

(** The second loop of [canonicalMIMEHeaderKey]: first letter and every
    letter after a hyphen in upper case, the others in lower case. *)
Fixpoint canonical_from (upper : bool) (s : string) : string :=
  match s with
  | EmptyString => EmptyString
  | String c r =>
      let n := code c in
      let c' :=
        if upper && (97 <=? n)%N && (n <=? 122)%N then ascii_of_N (n - 32)
        else if negb upper && (65 <=? n)%N && (n <=? 90)%N then ascii_of_N (n + 32)
        else c in
      String c' (canonical_from (code c' =? 45)%N r)
  end.

(** [textproto.CanonicalMIMEHeaderKey]: a key holding a space or a byte
    that is not valid in a field name is returned as it is. *)
Definition CanonicalMIMEHeaderKey (s : string) : string :=
  if all_valid s then canonical_from true s else s.

(** [textproto.MIMEHeader]: canonical key to the values added, in order. *)
Abbreviation MIMEHeader := (gmap string (list string)).

(** [h.Add(key, value)]: the value is appended to those of the key. *)
Definition Add (h : MIMEHeader) (key value : string) : MIMEHeader :=
  let key := CanonicalMIMEHeaderKey key in
  <[key := default [] (h !! key) ++ [value]]> h.

(** [h.Values(key)]: all the values of the key. *)
Definition Values (h : MIMEHeader) (key : string) : list string :=
  default [] (h !! CanonicalMIMEHeaderKey key).

(** [h.Get(key)]: the first value of the key, or the empty string. *)
Definition Get (h : MIMEHeader) (key : string) : string :=
  match Values h key with
  | v :: _ => v
  | [] => EmptyString
  end.

End textproto.

(** ** Errors *)

(** Go's [error] values.  Errors of libraries are opaque and stand as their
    message; [FailedToPostError] is the wrapper the package declares. *)
Inductive error : Type :=
  | errorString (msg : string)
  | FailedToPostError (Err : error).

(** [func (f FailedToPostError) Error() string]: the message of the wrapped
    error. *)
Fixpoint Error (e : error) : string :=
  match e with
  | errorString msg => msg
  | FailedToPostError Err => Error Err
  end.

(** ** Packages [net/url] and [net/http] (requests, clients, responses) *)

Module url.

Record URL : Type := mkURL {
  Scheme : string;
  Host : string;
  Path : string;
  RawQuery : string
}.

End url.

Module http.

Definition MethodPost : string := "POST".

(** [http.ErrUseLastResponse]. *)
Definition ErrUseLastResponse : error := errorString "net/http: use last response".

Record Request : Type := mkRequest {
  Method : string;
  URL : url.URL;
  Header : textproto.MIMEHeader;
  Body : string;
  ContentLength : Z;
  Host : string
}.

Definition set_Host (req : Request) (v : string) : Request :=
  mkRequest (Method req) (URL req) (Header req) (Body req) (ContentLength req) v.

(** [req.Header.Add(k, v)]. *)
Definition Header_Add (req : Request) (k v : string) : Request :=
  mkRequest (Method req) (URL req) (textproto.Add (Header req) k v)
            (Body req) (ContentLength req) (Host req).

Record Response : Type := mkResponse {
  StatusCode : Z;
  RespBody : string
}.

(** [http.Client]: the fields the package sets or leaves zero.  A [nil]
    [Transport] stands for [http.DefaultTransport], a [nil] [CheckRedirect]
    for the default policy (follow up to ten redirects), a zero [Timeout]
    for no timeout.  [Timeout] is a [time.Duration], in nanoseconds. *)
Record Client : Type := mkClient {
  Transport : option string;
  CheckRedirect : option (Request → list Request → option error);
  Timeout : Z
}.

(** [http.DefaultClient = &Client{}]. *)
Definition DefaultClient : Client := mkClient None None 0.

(** [validMethod]: a non-empty token. *)
Definition validMethod (method : string) : bool :=
  negb (String.eqb method EmptyString) && textproto.all_valid method.

(** Index of the last occurrence of a byte, counted from one; zero when the
    byte does not occur ([strings.LastIndex] plus one). *)
Fixpoint last_index_from (i : nat) (s : string) (c : ascii) : nat :=
  match s with
  | EmptyString => 0
  | String a r =>
      match last_index_from (S i) r c with
      | 0 => if Ascii.eqb a c then S i else 0
      | j => j
      end
  end.

Fixpoint drop_last (s : string) : string :=
  match s with
  | EmptyString => EmptyString
  | String a EmptyString => EmptyString
  | String a r => String a (drop_last r)
  end.

(** [removeEmptyPort]: the colon of an empty port is dropped
    (["example.com:"] becomes ["example.com"]). *)
Definition removeEmptyPort (host : string) : string :=
  let colon := last_index_from 0 host ":" in
  if ((last_index_from 0 host "]" <? colon) && (colon =? String.length host))%nat
  then drop_last host else host.

(** [url.Parse] with the host written back by [NewRequest]. *)
Definition with_host (u : url.URL) (host : string) : url.URL :=
  url.mkURL (url.Scheme u) host (url.Path u) (url.RawQuery u).

(** [http.NewRequest(method, url, body)] for a body held in memory.  The
    parser of package [net/url] is a parameter: the client's code passes the
    target text through and handles the two results. *)
Definition NewRequest (parse : string → url.URL + error)
    (method urlStr body : string) : Request + error :=
  let method := if String.eqb method EmptyString then "GET" else method in
  if negb (validMethod method) then inr (errorString "net/http: invalid method")
  else
    match parse urlStr with
    | inr err => inr err
    | inl u =>
        let u := with_host u (removeEmptyPort (url.Host u)) in
        inl (mkRequest method u ∅ body (Z.of_nat (String.length body)) (url.Host u))
    end.

End http.

(** [time.Second], in nanoseconds. *)
Definition Second : Z := 1000000000.

(** ** Packages [io] and [logrus] *)

Module io.

Inductive Writer : Type :=
  | Discard                      (* [io.Discard] *)
  | Stream (name : string).      (* any other writer *)

End io.

Module log.

(** [logrus.Logger]: where it writes, and its level (zero is [PanicLevel]). *)
Record Logger : Type := mkLogger {
  Out : io.Writer;
  Level : Z
}.

End log.

(** ** Package [proxy]: data *)

(** Modelled from the spec: [websocket.IElement] and [websocket.ErrorElement]
    are declared in package [websocket]; the client only builds "an error
    element carrying the wrapped failure". *)
Inductive IElement : Type :=
  | ErrorElement (err : error).

(** Modelled from the spec: [eventContext] is declared in another file of the
    package; of its fields the client reads the body and the headers, a Go
    map from string to string (it is ranged over with two string
    variables). *)
Record eventContext : Type := mkEventContext {
  requestBody : string;
  requestHeaders : gmap string string
}.

(** What a response handler does to the outside world, as opaque actions.
    The code of a handler is not the client's: a handler is taken to return,
    and all that is kept of it is the actions it performs. *)
Definition Effect : Type := string.

(** [EndpointResponseHandler]: the interface, one method. *)
Record EndpointResponseHandler : Type := mkHandler {
  ProcessResponse : eventContext → string → http.Response → list Effect
}.

(** [EndpointResponseHandlerFunc]: the adapter from functions;
    [ProcessResponse] calls [f(evtCtx, forwardURL, resp)]. *)
Definition EndpointResponseHandlerFunc
    (f : eventContext → string → http.Response → list Effect) : EndpointResponseHandler :=
  mkHandler (λ evtCtx forwardURL resp, f evtCtx forwardURL resp).

(** A channel, by identity. *)
Definition Chan : Type := nat.

(** [EndpointConfig]: every field may be [nil]. *)
Record EndpointConfig : Type := mkConfig {
  HTTPClient : option http.Client;
  Log : option log.Logger;
  ResponseHandler : option EndpointResponseHandler;
  OutCh : option Chan
}.

Definition set_Log (b : EndpointConfig) (l : log.Logger) : EndpointConfig :=
  mkConfig (HTTPClient b) (Some l) (ResponseHandler b) (OutCh b).
Definition set_HTTPClient (b : EndpointConfig) (cl : http.Client) : EndpointConfig :=
  mkConfig (Some cl) (Log b) (ResponseHandler b) (OutCh b).
Definition set_ResponseHandler (b : EndpointConfig) (h : EndpointResponseHandler) : EndpointConfig :=
  mkConfig (HTTPClient b) (Log b) (Some h) (OutCh b).

(** Addresses of configuration bundles, and the heap that holds them: the
    client keeps a pointer to a bundle it shares with its caller. *)
Definition loc : Type := nat.
Abbreviation Store := (gmap loc EndpointConfig).

Record EndpointClient : Type := mkEndpointClient {
  URL : string;
  headers : gmap string string;
  connect : bool;
  events : gmap string bool;
  cfg : option loc;
  isEventDestination : bool
}.

(** Reading a Go map: the zero value for a key that is absent. *)
Definition map_index {V} (zero : V) (m : gmap string V) (k : string) : V :=
  default zero (m !! k).

(** ** Package [proxy]: routing predicates *)

Definition SupportsEventType (c : EndpointClient) (connect' : bool) (eventType : string) : bool :=
  if negb (Bool.eqb connect' (connect c)) then false
  else if map_index false (events c) "*" || map_index false (events c) eventType then true
  else false.

Definition SupportsContext (c : EndpointClient) (context : string) : bool :=
  if connect c then negb (String.eqb context EmptyString)
  else String.eqb context EmptyString.

(** ** Package [proxy]: normalizers *)

Definition convertToMap (events : list string) : gmap string bool :=
  foldl (λ eventsMap event, <[event := true]> eventsMap) ∅ events.

(** A [for ... range] loop over a slice whose body may panic. *)
Fixpoint for_range {A S} (l : list A) (body : S → A → Res S) (s : S) : Res S :=
  match l with
  | [] => Done s
  | x :: rest => res_bind (body s x) (for_range rest body)
  end.

(** The pattern ["[\x00-\x1f]+"]. *)
Definition reg : regexp.Regexp := regexp.ClassPlus 0 31.

(** The body of the loop of [convertToMapAndSanitize]. *)
Definition sanitize_entry (headerMap : gmap string string) (header : string)
    : Res (gmap string string) :=
  let header := regexp.ReplaceAllString reg header EmptyString in
  let splitHeader := strings.SplitN header ":" 2 in
  res_bind (index splitHeader 0) (λ s0,
  let headerKey := strings.TrimSpace s0 in
  res_bind (index splitHeader 1) (λ s1,
  let headerVal := strings.TrimSpace s1 in
  if negb (String.eqb headerKey EmptyString)
  then Done (<[headerKey := headerVal]> headerMap)
  else Done headerMap)).

Definition convertToMapAndSanitize (headers : list string) : Res (gmap string string) :=
  for_range headers sanitize_entry ∅.

(** ** The world around a call *)

(** What the code cannot decide by itself: how a target text parses, what a
    transport answers to a request, and in which order a [range] statement
    visits a map (Go leaves it unspecified; [range_order n m] is the order
    of the [n]-th [range] statement of a call, some enumeration of [m]). *)
Record Env : Type := mkEnv {
  url_Parse : string → url.URL + error;
  client_Do : http.Client → http.Request → http.Response + error;
  range_order : nat → gmap string string → list (string * string);
  range_order_perm : ∀ n m, range_order n m ≡ₚ map_to_list m
}.

(** What a call does that others can see, in order. *)
Inductive Event : Type :=
  | EvDebug (logger : log.Logger) (fields : list (string * string)) (msg : string)
  | EvDo (client : http.Client) (req : http.Request)
  | EvSend (ch : Chan) (el : IElement)
  | EvProcessResponse (evtCtx : eventContext) (forwardURL : string) (resp : http.Response)
  | EvEffect (what : Effect)
  | EvClose (resp : http.Response).

(** Code with visible effects: the events so far and how the code ended. *)
Definition M (A : Type) : Type := list Event * Res A.

#[export] Instance M_ret : MRet M := λ A a, ([], Done a).
#[export] Instance M_bind : MBind M := λ A B k m,
  match m with
  | (t, Done a) => let '(t', r) := k a in (t ++ t', r)
  | (t, Panic f) => (t, Panic f)
  | (t, Blocked) => (t, Blocked)
  end.

Definition emit (e : Event) : M unit := ([e], Done tt).
Definition emits (es : list Event) : M unit := (es, Done tt).

(** Use of a pointer or interface value: [nil] panics. *)
Definition nonnil {A} (p : option A) : M A :=
  match p with
  | Some a => ([], Done a)
  | None => ([], Panic NilDereference)
  end.

(** [c.cfg]: the bundle the pointer leads to.  Go has no dangling pointers;
    an address outside the heap is treated like [nil]. *)
Definition deref (σ : Store) (p : option loc) : M EndpointConfig :=
  nonnil (p ≫= λ l, σ !! l).

(** [ch <- el].  A send on a [nil] channel blocks for ever.  A send on a
    channel is taken to be accepted: the buffer and the receivers belong to
    the consumers of the channel. *)
Definition chan_send (ch : option Chan) (el : IElement) : M unit :=
  match ch with
  | Some ch => emit (EvSend ch el)
  | None => ([], Blocked)
  end.

(** [defer d] followed by [body]: [d] runs when [body] returns and also when
    it panics. *)
Definition defer {A} (d : list Event) (body : M A) : M A :=
  match body with
  | (t, Done a) => (t ++ d, Done a)
  | (t, Panic f) => (t ++ d, Panic f)
  | (t, Blocked) => (t, Blocked)
  end.

(** ** Package [proxy]: delivery *)

(** The two loops that fill the request, shared by [Post] and [PostV2] word
    for word. *)
Definition add_event_headers (req : http.Request) (hs : list (string * string)) : http.Request :=
  foldl (λ req kv, http.Header_Add req kv.1 kv.2) req hs.

Definition add_custom_headers (req : http.Request) (hs : list (string * string)) : http.Request :=
  foldl (λ req kv,
           if String.eqb (strings.ToLower kv.1) "host"
           then http.set_Host req kv.2
           else http.Header_Add req kv.1 kv.2) req hs.

Definition Post (env : Env) (σ : Store) (c : EndpointClient) (evtCtx : eventContext)
    : M (option error) :=
  b ← deref σ (cfg c);
  logger ← nonnil (Log b);
  emit (EvDebug logger [("prefix", "proxy.EndpointClient.Post")]
                "Forwarding event to local endpoint");;
  match http.NewRequest (url_Parse env) http.MethodPost (URL c) (requestBody evtCtx) with
  | inr err => mret (Some err)
  | inl req =>
      let req := add_event_headers req (range_order env 0 (requestHeaders evtCtx)) in
      let req := add_custom_headers req (range_order env 1 (headers c)) in
      client ← nonnil (HTTPClient b);
      emit (EvDo client req);;
      match client_Do env client req with
      | inr err =>
          chan_send (OutCh b) (ErrorElement (FailedToPostError err));;
          mret (Some err)
      | inl resp =>
          defer [EvClose resp]
            (handler ← nonnil (ResponseHandler b);
             emit (EvProcessResponse evtCtx (URL c) resp);;
             emits (EvEffect <$> ProcessResponse handler evtCtx (URL c) resp);;
             mret None)
      end
  end.

Definition PostV2 (env : Env) (σ : Store) (c : EndpointClient) (evtCtx : eventContext)
    : M (option error) :=
  match http.NewRequest (url_Parse env) http.MethodPost (URL c) (requestBody evtCtx) with
  | inr err => mret (Some err)
  | inl req =>
      let req := add_event_headers req (range_order env 0 (requestHeaders evtCtx)) in
      let req := add_custom_headers req (range_order env 1 (headers c)) in
      emit (EvDo http.DefaultClient req);;
      match client_Do env http.DefaultClient req with
      | inr err =>
          b ← deref σ (cfg c);
          chan_send (OutCh b) (ErrorElement (FailedToPostError err));;
          mret (Some err)
      | inl resp =>
          defer [EvClose resp]
            (b ← deref σ (cfg c);
             handler ← nonnil (ResponseHandler b);
             emit (EvProcessResponse evtCtx (URL c) resp);;
             emits (EvEffect <$> ProcessResponse handler evtCtx (URL c) resp);;
             mret None)
      end
  end.

(** ** Package [proxy]: the constructor *)

(** Code that reads and writes the heap of bundles. *)
Definition St (A : Type) : Type := Store → Store * Res A.

#[export] Instance St_ret : MRet St := λ A a σ, (σ, Done a).
#[export] Instance St_bind : MBind St := λ A B k m σ,
  match m σ with
  | (σ', Done a) => k a σ'
  | (σ', Panic f) => (σ', Panic f)
  | (σ', Blocked) => (σ', Blocked)
  end.

(** [&EndpointConfig{...}]: a bundle at a new address. *)
Definition alloc (b : EndpointConfig) : St (option loc) := λ σ,
  let l := fresh (dom σ) in (<[l := b]> σ, Done (Some l)).

(** Reading and writing through the pointer. *)
Definition load (p : option loc) : St EndpointConfig := λ σ,
  match p ≫= λ l, σ !! l with
  | Some b => (σ, Done b)
  | None => (σ, Panic NilDereference)
  end.

Definition store (p : option loc) (b : EndpointConfig) : St unit := λ σ,
  match p with
  | Some l => (<[l := b]> σ, Done tt)
  | None => (σ, Panic NilDereference)
  end.

Definition lift {A} (r : Res A) : St A := λ σ, (σ, r).

Definition defaultTimeout : Z := 30 * Second.

Definition NewEndpointClient (url : string) (headers : list string) (connect : bool)
    (events : list string) (isEventDestination : bool) (cfg : option loc)
    : St EndpointClient :=
  cfg ← match cfg with
        | None => alloc (mkConfig None None None None)
        | Some _ => mret cfg
        end;
  b ← load cfg;
  match Log b with
  | None => store cfg (set_Log b (log.mkLogger io.Discard 0))
  | Some _ => mret tt
  end;;
  b ← load cfg;
  match HTTPClient b with
  | None =>
      store cfg (set_HTTPClient b
        (http.mkClient None (Some (λ req via, Some http.ErrUseLastResponse)) defaultTimeout))
  | Some _ => mret tt
  end;;
  b ← load cfg;
  match ResponseHandler b with
  | None => store cfg (set_ResponseHandler b (EndpointResponseHandlerFunc (λ _ _ _, [])))
  | Some _ => mret tt
  end;;
  headers ← lift (convertToMapAndSanitize headers);
  mret (mkEndpointClient url headers connect (convertToMap events) cfg isEventDestination).

(** * Vocabulary of the specification *)

(** The control bytes, 0x00 to 0x1F, and a string with all of them removed. *)
Definition is_control (c : ascii) : bool := (code c <=? 31)%N.

Fixpoint strip_controls (s : string) : string :=
  match s with
  | EmptyString => EmptyString
  | String c r => if is_control c then strip_controls r else String c (strip_controls r)
  end.

(** An entry split on its first colon. *)
Definition splits_at_first_colon (s before after : string) : Prop :=
  s = before +:+ String ":" after ∧ ":"%char ∉ bytes before.

(** The key and the value an entry stands for: control bytes removed, split
    on the first colon, both sides trimmed. *)
Definition normalized_entry (h k v : string) : Prop :=
  ∃ before after,
    splits_at_first_colon (strip_controls h) before after
    ∧ k = strings.TrimSpace before ∧ v = strings.TrimSpace after.

(** A sequence of runes that pass the tests of one, two and three bytes. *)
Inductive runs (p1 : ascii → bool) (p2 : ascii → ascii → bool)
    (p3 : ascii → ascii → ascii → bool) : list ascii → Prop :=
  | runs_nil : runs p1 p2 p3 []
  | runs_1 a l : p1 a = true → runs p1 p2 p3 l → runs p1 p2 p3 (a :: l)
  | runs_2 a b l : p2 a b = true → runs p1 p2 p3 l → runs p1 p2 p3 (a :: b :: l)
  | runs_3 a b c l : p3 a b c = true → runs p1 p2 p3 l → runs p1 p2 p3 (a :: b :: c :: l).

(** The text begins with a rune that passes. *)
Definition starts_run (p1 : ascii → bool) (p2 : ascii → ascii → bool)
    (p3 : ascii → ascii → ascii → bool) (l : list ascii) : bool :=
  match l with
  | a :: b :: c :: _ => p1 a || p2 a b || p3 a b c
  | [a; b] => p1 a || p2 a b
  | [a] => p1 a
  | [] => false
  end.

(** A sequence of white space runes, UTF-8 encoded. *)
Definition white : list ascii → Prop :=
  runs strings.isSpace1 strings.isSpace2 strings.isSpace3.

(** The text begins with a white space rune. *)
Definition starts_white : list ascii → bool :=
  starts_run strings.isSpace1 strings.isSpace2 strings.isSpace3.

(** The text ends with a white space rune. *)
Definition ends_white (l : list ascii) : bool :=
  starts_run strings.isSpace1 (λ a b, strings.isSpace2 b a)
             (λ a b c, strings.isSpace3 c b a) (rev l).

(** Neither control bytes inside nor white space around. *)
Definition clean (s : string) : Prop :=
  (∀ c, c ∈ bytes s → is_control c = false)
  ∧ starts_white (bytes s) = false ∧ ends_white (bytes s) = false.

(** Membership in an event set held as a [map[string]bool]. *)
Definition contains (m : gmap string bool) (k : string) : Prop := m !! k = Some true.

(** A header key that is "host" but for the case of its letters. *)
Definition host_like (k : string) : bool := String.eqb (strings.ToLower k) "host".

(** The values a sequence of headers gives to the canonical form of a key,
    in order. *)
Definition values_for (k : string) (hs : list (string * string)) : list string :=
  (filter (λ kv, textproto.CanonicalMIMEHeaderKey kv.1 = textproto.CanonicalMIMEHeaderKey k) hs).*2.

(** The request a call has built when it hands it to the transport, or the
    error of its construction. *)
Definition outgoing (env : Env) (c : EndpointClient) (evtCtx : eventContext)
    : http.Request + error :=
  match http.NewRequest (url_Parse env) http.MethodPost (URL c) (requestBody evtCtx) with
  | inr err => inr err
  | inl req =>
      inl (add_custom_headers
             (add_event_headers req (range_order env 0 (requestHeaders evtCtx)))
             (range_order env 1 (headers c)))
  end.

(** What can be seen of a call: the requests handed to a transport and the
    transports used, the elements sent on a channel, the calls of the
    response handler, the debug lines asked of a logger, the bodies closed. *)
Definition requests_of (t : list Event) : list http.Request :=
  omap (λ e, match e with EvDo _ req => Some req | _ => None end) t.

Definition transports_of (t : list Event) : list http.Client :=
  omap (λ e, match e with EvDo client _ => Some client | _ => None end) t.

Definition sends_of (t : list Event) : list (Chan * IElement) :=
  omap (λ e, match e with EvSend ch el => Some (ch, el) | _ => None end) t.

Definition handler_calls (t : list Event) : list (eventContext * string * http.Response) :=
  omap (λ e, match e with
             | EvProcessResponse evtCtx u resp => Some (evtCtx, u, resp)
             | _ => None
             end) t.

Definition debug_lines (t : list Event) : list string :=
  omap (λ e, match e with EvDebug _ _ msg => Some msg | _ => None end) t.

Definition closed_bodies (t : list Event) : list http.Response :=
  omap (λ e, match e with EvClose resp => Some resp | _ => None end) t.

Definition effects_of (t : list Event) : list Effect :=
  omap (λ e, match e with EvEffect what => Some what | _ => None end) t.

(** A trace with the debug lines left out and every transport replaced. *)
Definition through (client : http.Client) (t : list Event) : list Event :=
  omap (λ e, match e with
             | EvDebug _ _ _ => None
             | EvDo _ req => Some (EvDo client req)
             | _ => Some e
             end) t.

(** The bundle a client's pointer leads to. *)
Definition bundle_of (σ : Store) (c : EndpointClient) : option EndpointConfig :=
  cfg c ≫= λ l, σ !! l.

(** The bundle a caller hands to the constructor: none, which stands for the
    empty one, or the one its pointer leads to. *)
Definition supplied (σ : Store) (p : option loc) (b0 : EndpointConfig) : Prop :=
  match p with
  | None => b0 = mkConfig None None None None
  | Some l => σ !! l = Some b0
  end.

(** ** Concrete worlds and clients *)

Definition example_URL : string := "http://localhost:3000/hook".

Definition example_parse (s : string) : url.URL + error :=
  if String.eqb s example_URL
  then inl (url.mkURL "http" "localhost:3000" "/hook" EmptyString)
  else inr (errorString "parse: invalid URI for request").

Definition refused : error := errorString "dial tcp: connection refused".

(** Every transport fails to connect; [range] visits a map in the order of
    [map_to_list]. *)
Definition env_refused : Env :=
  mkEnv example_parse (λ _ _, inr refused) (λ _ m, map_to_list m)
        (λ _ _, reflexivity _).

(** Every transport is answered with status 200. *)
Definition env_ok : Env :=
  mkEnv example_parse (λ _ _, inl (http.mkResponse 200 "ok")) (λ _ m, map_to_list m)
        (λ _ _, reflexivity _).

(** The same, [range] visiting a map in the opposite order. *)
Definition env_ok_reversed : Env :=
  mkEnv example_parse (λ _ _, inl (http.mkResponse 200 "ok")) (λ _ m, reverse (map_to_list m))
        (λ _ m, reverse_Permutation (map_to_list m)).

(** A bundle with all its parts, at address 7. *)
Definition example_bundle : EndpointConfig :=
  mkConfig (Some (http.mkClient None None (5 * Second)))
           (Some (log.mkLogger (io.Stream "stderr") 5))
           (Some (EndpointResponseHandlerFunc (λ _ u _, ["forwarded to " +:+ u])))
           (Some 1).

Definition example_store : Store := {[ 7 := example_bundle ]}.

Definition example_client (hs : gmap string string) : EndpointClient :=
  mkEndpointClient example_URL hs false {[ "*" := true ]} (Some 7) false.

Definition example_event : eventContext :=
  mkEventContext "{}" {[ "X-Foo" := "1" ]}.

(** A client with one header named "Host", and one with two that differ in
    the case of the name. *)
Definition example_host_client : EndpointClient :=
  example_client {[ "Host" := "example.com" ]}.

Definition example_two_hosts_client : EndpointClient :=
  example_client {[ "Host" := "a.example"; "host" := "b.example" ]}.

(** The request [example_host_client] builds for [example_event]. *)
Definition example_host_request : http.Request :=
  http.mkRequest "POST" (url.mkURL "http" "localhost:3000" "/hook" EmptyString)
                 {[ "X-Foo" := ["1"] ]} "{}" 2 "example.com".

(** ** Vocabulary of further properties *)

(** A header as a user writes it: the key, a colon, a space, the value. *)
Definition render_entry (kv : string * string) : string :=
  kv.1 +:+ ": " +:+ kv.2.

(** An entry holds a colon. *)
Definition has_colon (h : string) : Prop := ":"%char ∈ bytes h.

(** The responses the transports gave to the requests of a trace. *)
Definition answered (env : Env) (t : list Event) : list http.Response :=
  omap (λ e, match e with
             | EvDo client req =>
                 match client_Do env client req with
                 | inl resp => Some resp
                 | inr _ => None
                 end
             | _ => None
             end) t.

(** The errors wrapped in the elements sent on a channel. *)
Definition sent_errors (t : list Event) : list error :=
  omap (λ e, match e with EvSend _ (ErrorElement err) => Some err | _ => None end) t.

(** The request [example_client ∅] builds for [example_event]. *)
Definition example_plain_request : http.Request :=
  http.mkRequest "POST" (url.mkURL "http" "localhost:3000" "/hook" EmptyString)
                 {[ "X-Foo" := ["1"] ]} "{}" 2 "localhost:3000".

(** No two keys of a map have the same canonical form. *)
Definition canonical_distinct (m : gmap string string) : Prop :=
  ∀ k1 k2, is_Some (m !! k1) → is_Some (m !! k2) →
    textproto.CanonicalMIMEHeaderKey k1 = textproto.CanonicalMIMEHeaderKey k2 → k1 = k2.

(** One byte of the canonical form: upper case where a word starts, lower
    case elsewhere. *)
Definition canonical_byte (upper : bool) (c : ascii) : ascii :=
  let n := code c in
  if upper && (97 <=? n)%N && (n <=? 122)%N then ascii_of_N (n - 32)
  else if negb upper && (65 <=? n)%N && (n <=? 90)%N then ascii_of_N (n + 32)
  else c.

(** A client with two headers of its own, and the request it builds for
    [example_event]. *)
Definition example_two_headers_client : EndpointClient :=
  example_client {[ "X-A" := "1"; "X-B" := "2" ]}.

Definition example_two_headers_request : http.Request :=
  http.mkRequest "POST" (url.mkURL "http" "localhost:3000" "/hook" EmptyString)
                 {[ "X-A" := ["1"]; "X-B" := ["2"]; "X-Foo" := ["1"] ]} "{}" 2
                 "localhost:3000".

(** A client whose header is the event's but for the case of its name, and
    the request it builds for [example_event]. *)
Definition example_lower_client : EndpointClient :=
  example_client {[ "x-foo" := "2" ]}.

Definition example_merged_request : http.Request :=
  http.mkRequest "POST" (url.mkURL "http" "localhost:3000" "/hook" EmptyString)
                 {[ "X-Foo" := ["1"; "2"] ]} "{}" 2 "localhost:3000".

(** Two requests that are the same but for the Host field and for the order
    of the values the header set holds under a key. *)
Definition same_up_to_order (r1 r2 : http.Request) : Prop :=
  http.Method r1 = http.Method r2 ∧ http.URL r1 = http.URL r2
  ∧ http.Body r1 = http.Body r2 ∧ http.ContentLength r1 = http.ContentLength r2
  ∧ ∀ k, option_Forall2 (≡ₚ) (http.Header r1 !! k) (http.Header r2 !! k).


(** * Properties *)

(** ** Strings *)

Lemma bytes_app (s t : string) : bytes (s +:+ t) = bytes s ++ bytes t.
Proof. induction s as [|c s IH]; simpl; [done | by rewrite IH]. Qed.

Lemma bytes_of_list (l : list ascii) : bytes (string_of_list_ascii l) = l.
Proof. induction l as [|c l IH]; simpl; [done | by rewrite IH]. Qed.

Lemma in_class_reg c : regexp.in_class reg c = is_control c.
Proof. unfold regexp.in_class, reg, is_control. by destruct (code c). Qed.

(** Replacing the runs of control bytes by nothing removes every control
    byte and nothing else. *)
Lemma ReplaceAllString_reg (s : string) :
  regexp.ReplaceAllString reg s EmptyString = strip_controls s.
Proof.
  unfold regexp.ReplaceAllString. generalize false.
  induction s as [|c s IH]; intros b; cbn [regexp.replace_from strip_controls]; [done|].
  rewrite in_class_reg. destruct (is_control c).
  - destruct b; simpl; apply IH.
  - f_equal. apply IH.
Qed.

Lemma bytes_strip_controls s :
  bytes (strip_controls s) = filter (λ c, is_control c = false) (bytes s).
Proof.
  induction s as [|c s IH]; cbn [bytes strip_controls]; [done|].
  rewrite filter_cons. destruct (is_control c) eqn:E; case_decide; try done.
  cbn [bytes]. by rewrite IH.
Qed.

Lemma strip_controls_elem c s :
  c ∈ bytes (strip_controls s) ↔ c ∈ bytes s ∧ is_control c = false.
Proof. rewrite bytes_strip_controls, list_elem_of_filter. tauto. Qed.

(** [cut] finds the first occurrence of the separator. *)
Lemma cut_Some s sep before after :
  strings.cut s sep = Some (before, after) ↔
  s = before +:+ String sep after ∧ sep ∉ bytes before.
Proof.
  revert before. induction s as [|c s IH]; intros before; simpl.
  - split; [done|]. intros [H _]. by destruct before.
  - destruct (Ascii.eqb_spec c sep) as [->|Hne].
    + split.
      * intros [= <- <-]. split; [done | apply not_elem_of_nil].
      * intros [H Hn]. destruct before as [|d before]; simpl in *.
        { by injection H as ->. }
        injection H as <- _. exfalso. apply Hn. left.
    + destruct (strings.cut s sep) as [[b a]|] eqn:E.
      * split.
        -- intros [= <- <-]. destruct (proj1 (IH b) eq_refl) as [-> Hn].
           split; [done|]. simpl. rewrite not_elem_of_cons. done.
        -- intros [H Hn]. destruct before as [|d before]; simpl in *.
           { injection H as -> _. done. }
           injection H as <- H. rewrite not_elem_of_cons in Hn.
           destruct Hn as [_ Hn].
           assert (Some (b, a) = Some (before, after)) as [= -> ->]; [|done].
           apply IH. done.
      * split; [done|]. intros [H Hn].
        destruct before as [|d before]; simpl in *.
        { injection H as -> _. done. }
        injection H as <- H. rewrite not_elem_of_cons in Hn.
        destruct Hn as [_ Hn].
        assert (None = Some (before, after)); [|done]. apply IH. done.
Qed.

Lemma cut_None s sep : strings.cut s sep = None ↔ sep ∉ bytes s.
Proof.
  induction s as [|c s IH]; simpl.
  - split; [intros _; apply not_elem_of_nil | done].
  - rewrite not_elem_of_cons. destruct (Ascii.eqb_spec c sep) as [->|Hne].
    + split; [done | intros [? _]; done].
    + destruct (strings.cut s sep) as [[b a]|].
      * split; [done|]. intros [_ H]. apply IH in H. done.
      * split; [|done]. intros _. split; [congruence | by apply IH].
Qed.

(** [SplitN] with a limit of two pieces. *)
Lemma SplitN_2 s sep :
  strings.SplitN s sep 2 =
  match strings.cut s sep with
  | Some (before, after) => [before; after]
  | None => [s]
  end.
Proof. simpl. by destruct (strings.cut s sep) as [[b a]|]. Qed.

(** ** Routing predicates *)

(** C6: [SupportsEventType] answers true exactly when the mode of the
    request is the client's connect mode and the client's event set contains
    the wildcard or the event type.  The function is a total function of its
    arguments: it has no state to read or write. *)
Theorem SupportsEventType_iff (c : EndpointClient) (requestMode : bool) (eventType : string) :
  SupportsEventType c requestMode eventType = true ↔
  requestMode = connect c ∧ (contains (events c) "*" ∨ contains (events c) eventType).
Proof.
  unfold SupportsEventType, contains, map_index.
  destruct requestMode, (connect c); simpl;
    destruct (events c !! "*") as [[]|]; destruct (events c !! eventType) as [[]|];
    simpl; intuition congruence.
Qed.

(** C7: [SupportsContext] answers true exactly when the client is in connect
    mode and the context is not empty, or in direct mode and the context is
    empty. *)
Theorem SupportsContext_iff (c : EndpointClient) (context : string) :
  SupportsContext c context = true ↔
  (connect c = true ∧ context ≠ EmptyString) ∨ (connect c = false ∧ context = EmptyString).
Proof.
  unfold SupportsContext.
  destruct (connect c); destruct (String.eqb_spec context EmptyString); simpl;
    intuition congruence.
Qed.

(** The event set of the constructor holds exactly the strings given. *)
Lemma convertToMap_contains (evs : list string) (k : string) :
  contains (convertToMap evs) k ↔ k ∈ evs.
Proof.
  unfold convertToMap, contains.
  assert (∀ m : gmap string bool,
    foldl (λ eventsMap event, <[event := true]> eventsMap) m evs !! k = Some true
    ↔ k ∈ evs ∨ m !! k = Some true) as H.
  { induction evs as [|e evs IH]; intros m; simpl.
    - rewrite elem_of_nil. tauto.
    - rewrite IH, elem_of_cons. destruct (decide (e = k)) as [->|Hne].
      + rewrite lookup_insert_eq. tauto.
      + rewrite lookup_insert_ne by done. intuition congruence. }
  rewrite H, lookup_empty. intuition congruence.
Qed.

(** For a client whose event set was made from a list, as the constructor
    does, the wildcard or the event type is in the list. *)
Lemma SupportsEventType_of_list (c : EndpointClient) (evs : list string)
    (requestMode : bool) (eventType : string) :
  events c = convertToMap evs →
  SupportsEventType c requestMode eventType = true ↔
  requestMode = connect c ∧ ("*" ∈ evs ∨ eventType ∈ evs).
Proof.
  intros H. rewrite <- !convertToMap_contains, <- H.
  unfold SupportsEventType, contains, map_index.
  destruct requestMode, (connect c); simpl;
    destruct (events c !! "*") as [[]|]; destruct (events c !! eventType) as [[]|];
    simpl; intuition congruence.
Qed.

(** ** The header normalizer *)

(** An entry that holds a colon is stored under its trimmed key, unless the
    key is empty. *)
Lemma sanitize_entry_colon m h before after :
  splits_at_first_colon (strip_controls h) before after →
  sanitize_entry m h =
  Done (if negb (String.eqb (strings.TrimSpace before) EmptyString)
        then <[strings.TrimSpace before := strings.TrimSpace after]> m else m).
Proof.
  intros H. apply cut_Some in H. unfold sanitize_entry.
  rewrite ReplaceAllString_reg, SplitN_2, H. simpl.
  by destruct (negb _).
Qed.

(** An entry that holds no colon makes the second index expression panic. *)
Lemma sanitize_entry_no_colon m h :
  ":"%char ∉ bytes h → sanitize_entry m h = Panic (IndexOutOfRange 1 1).
Proof.
  intros H. unfold sanitize_entry.
  assert (strings.cut (strip_controls h) ":" = None) as E.
  { apply cut_None. rewrite strip_controls_elem. tauto. }
  by rewrite ReplaceAllString_reg, SplitN_2, E.
Qed.

Lemma has_colon_splits h :
  ":"%char ∈ bytes h → ∃ before after, splits_at_first_colon (strip_controls h) before after.
Proof.
  intros H. destruct (strings.cut (strip_controls h) ":") as [[b a]|] eqn:E.
  - exists b, a. by apply cut_Some.
  - apply cut_None in E. exfalso. apply E. by apply strip_controls_elem.
Qed.

(** C1: a sequence of headers that holds an entry without a colon does not
    make the normalizer report a validation error: whatever the other entries
    are, the call panics, the index 1 being out of range for the one piece
    the split of that entry returns. *)
Theorem convertToMapAndSanitize_no_colon (hs : list string) :
  (∃ h, h ∈ hs ∧ ":"%char ∉ bytes h) →
  convertToMapAndSanitize hs = Panic (IndexOutOfRange 1 1).
Proof.
  unfold convertToMapAndSanitize. generalize (∅ : gmap string string).
  induction hs as [|h hs IH]; intros m [h0 [Hin Hno]].
  - by apply elem_of_nil in Hin.
  - simpl. destruct (decide (":"%char ∈ bytes h)) as [Hc|Hc].
    + destruct (has_colon_splits h Hc) as (b & a & Hs).
      rewrite (sanitize_entry_colon m h b a Hs). simpl.
      apply IH. exists h0. split; [|done].
      apply elem_of_cons in Hin as [->|]; done.
    + by rewrite sanitize_entry_no_colon.
Qed.

(** The single entry ["Bad-Header"]. *)
Lemma convertToMapAndSanitize_Bad_Header :
  convertToMapAndSanitize ["Bad-Header"] = Panic (IndexOutOfRange 1 1).
Proof.
  apply convertToMapAndSanitize_no_colon. exists "Bad-Header". split.
  - left.
  - apply (bool_decide_unpack _). vm_compute. exact I.
Defined.

(** ** White space and [TrimSpace] *)

Section drop_runes.
Variables (p1 : ascii → bool) (p2 : ascii → ascii → bool) (p3 : ascii → ascii → ascii → bool).

(** What is dropped is a sequence of runes that pass; what is left does not
    begin with one. *)
Lemma drop_runes_spec (s : list ascii) :
  ∃ pre, s = pre ++ strings.drop_runes p1 p2 p3 s ∧ runs p1 p2 p3 pre
         ∧ starts_run p1 p2 p3 (strings.drop_runes p1 p2 p3 s) = false.
Proof.
  remember (length s) as n eqn:Hn.
  revert s Hn. induction (lt_wf n) as [n _ IH]. intros s ->.
  destruct s as [|a r1]; [by exists []; repeat split; try constructor|].
  cbn [strings.drop_runes]. destruct (p1 a) eqn:E1.
  { destruct (IH (length r1) ltac:(simpl; lia) r1 eq_refl) as (pre & H & Hr & Hs).
    exists (a :: pre). split_and!; [simpl; congruence | by constructor | done]. }
  destruct r1 as [|b r2].
  { exists []. split_and!; [done | constructor | simpl; by rewrite E1]. }
  destruct (p2 a b) eqn:E2.
  { destruct (IH (length r2) ltac:(simpl; lia) r2 eq_refl) as (pre & H & Hr & Hs).
    exists (a :: b :: pre). split_and!; [simpl; congruence | by apply runs_2 | done]. }
  destruct r2 as [|c r3].
  { exists []. split_and!; [done | constructor | simpl; by rewrite E1, E2]. }
  destruct (p3 a b c) eqn:E3.
  { destruct (IH (length r3) ltac:(simpl; lia) r3 eq_refl) as (pre & H & Hr & Hs).
    exists (a :: b :: c :: pre). split_and!; [simpl; congruence | by apply runs_3 | done]. }
  exists []. split_and!; [done | constructor | simpl; by rewrite E1, E2, E3].
Qed.

Lemma runs_app l1 l2 : runs p1 p2 p3 l1 → runs p1 p2 p3 l2 → runs p1 p2 p3 (l1 ++ l2).
Proof.
  induction 1; intros; simpl;
    [done | apply runs_1 | apply runs_2 | apply runs_3]; auto.
Qed.

(** A text that begins with a rune that passes still does when it is
    extended. *)
Lemma starts_run_app l x :
  starts_run p1 p2 p3 l = true → starts_run p1 p2 p3 (l ++ x) = true.
Proof.
  destruct l as [|a [|b [|c l]]]; simpl; [done | | | done].
  - intros H. destruct x as [|? [|? ?]]; simpl; by rewrite H.
  - intros H. destruct x; simpl; by rewrite H.
Qed.

End drop_runes.

(** Runes read backwards, put back in order. *)
Lemma runs_mirror p1 p2 p3 l :
  runs p1 (λ a b, p2 b a) (λ a b c, p3 c b a) l → runs p1 p2 p3 (rev l).
Proof.
  induction 1 as [|a l Ha _ IH|a b l Hab _ IH|a b c l Habc _ IH]; simpl.
  - constructor.
  - apply runs_app; [done|]. apply runs_1; [done | constructor].
  - rewrite <- app_assoc. apply runs_app; [done|]. apply runs_2; [done | constructor].
  - rewrite <- !app_assoc. apply runs_app; [done|]. apply runs_3; [done | constructor].
Qed.

Lemma trim_left_spec (l : list ascii) :
  ∃ pre, l = pre ++ strings.trim_left l ∧ white pre
         ∧ starts_white (strings.trim_left l) = false.
Proof. apply drop_runes_spec. Qed.

Lemma trim_right_spec (l : list ascii) :
  ∃ suf, l = strings.trim_right l ++ suf ∧ white suf
         ∧ ends_white (strings.trim_right l) = false.
Proof.
  unfold strings.trim_right, ends_white.
  destruct (drop_runes_spec strings.isSpace1 (λ a b, strings.isSpace2 b a)
              (λ a b c, strings.isSpace3 c b a) (rev l)) as (pre & H & Hr & Hs).
  exists (rev pre). split_and!.
  - rewrite <- rev_app_distr, <- H. by rewrite rev_involutive.
  - by apply runs_mirror.
  - by rewrite rev_involutive.
Qed.

(** [TrimSpace] removes white space at both ends, and nothing else; what it
    returns neither begins nor ends with white space. *)
Lemma TrimSpace_spec (s : string) :
  ∃ pre suf, bytes s = pre ++ bytes (strings.TrimSpace s) ++ suf
             ∧ white pre ∧ white suf
             ∧ starts_white (bytes (strings.TrimSpace s)) = false
             ∧ ends_white (bytes (strings.TrimSpace s)) = false.
Proof.
  unfold strings.TrimSpace. rewrite bytes_of_list.
  destruct (trim_left_spec (bytes s)) as (pre & H1 & Hp & Hs).
  destruct (trim_right_spec (strings.trim_left (bytes s))) as (suf & H2 & Hq & He).
  exists pre, suf. split_and!; try done.
  - by rewrite <- H2.
  - destruct (starts_white (strings.trim_right _)) eqn:E; [|done].
    rewrite H2 in Hs. unfold starts_white in *.
    by rewrite (starts_run_app _ _ _ _ suf E) in Hs.
Qed.

Lemma TrimSpace_bytes (s : string) (c : ascii) :
  c ∈ bytes (strings.TrimSpace s) → c ∈ bytes s.
Proof.
  destruct (TrimSpace_spec s) as (pre & suf & -> & _). intros H.
  rewrite !elem_of_app. tauto.
Qed.

(** ** The header normalizer, entry by entry *)

Lemma for_range_app {A S} (l1 l2 : list A) (body : S → A → Res S) (s : S) :
  for_range (l1 ++ l2) body s = res_bind (for_range l1 body s) (for_range l2 body).
Proof.
  revert s. induction l1 as [|x l1 IH]; intros s; simpl; [done|].
  destruct (body s x); simpl; auto.
Qed.

(** An entry stands for one key and one value. *)
Lemma normalized_entry_fun h k v k' v' :
  normalized_entry h k v → normalized_entry h k' v' → k = k' ∧ v = v'.
Proof.
  intros (b & a & H & -> & ->) (b' & a' & H' & -> & ->).
  apply cut_Some in H, H'. rewrite H in H'. by injection H' as -> ->.
Qed.

(** The key and the value of an entry hold no control byte and have no white
    space around them. *)
Lemma normalized_entry_clean h k v : normalized_entry h k v → clean k ∧ clean v.
Proof.
  intros (b & a & [H Hn] & -> & ->).
  assert (∀ c, c ∈ bytes (strip_controls h) → is_control c = false) as Hall.
  { intros c Hc. apply strip_controls_elem in Hc. tauto. }
  rewrite H, bytes_app in Hall. cbn [bytes] in Hall.
  split; (split_and!;
    [ intros c Hc; apply TrimSpace_bytes in Hc; apply Hall;
      rewrite elem_of_app, elem_of_cons; tauto
    | match goal with |- _ (bytes (strings.TrimSpace ?s)) = _ =>
        destruct (TrimSpace_spec s) as (? & ? & _ & _ & _ & ? & ?) end; done .. ]).
Qed.

(** The loop of the normalizer on entries that all hold a colon: it ends,
    and a key is bound to the value of the last entry that stands for it. *)
Lemma for_range_sanitize_entry (hs : list string) :
  Forall (λ h, ":"%char ∈ bytes h) hs →
  ∃ m, for_range hs sanitize_entry ∅ = Done m ∧
    ∀ k v, m !! k = Some v ↔
      k ≠ EmptyString ∧ ∃ i h, hs !! i = Some h ∧ normalized_entry h k v
        ∧ ∀ j h' v', i < j → hs !! j = Some h' → ¬ normalized_entry h' k v'.
Proof.
  induction hs as [|h hs IH] using rev_ind; intros Hall.
  { exists ∅. split; [done|]. intros k v. rewrite lookup_empty. split; [done|].
    intros (_ & i & h & H & _). by rewrite lookup_nil in H. }
  apply Forall_app in Hall as [Hall Hh]. rewrite Forall_singleton in Hh.
  destruct (IH Hall) as (m & Hm & Hlook). clear IH.
  destruct (has_colon_splits h Hh) as (b & a & Hs).
  assert (normalized_entry h (strings.TrimSpace b) (strings.TrimSpace a)) as Hne
    by (by exists b, a).
  eexists. split.
  { rewrite for_range_app, Hm. simpl. rewrite (sanitize_entry_colon m h b a Hs). done. }
  intros k v.
  assert (∀ i x, (hs ++ [h]) !! i = Some x ↔
                 hs !! i = Some x ∨ (i = length hs ∧ x = h)) as Hsnoc.
  { intros i x. rewrite lookup_snoc_Some. split.
    - intros [[_ H]|[-> ->]]; [by left | by right].
    - intros [H|[-> ->]]; [left; split; [by apply lookup_lt_Some in H | done] | by right]. }
  split.
  - (* a binding of the map comes from an entry *)
    intros Hk.
    assert (k = strings.TrimSpace b ∧ k ≠ EmptyString ∧ v = strings.TrimSpace a
            ∨ (k ≠ strings.TrimSpace b ∨ strings.TrimSpace b = EmptyString)
              ∧ m !! k = Some v) as [(-> & Hk0 & ->)|[Hk0 Hk1]].
    { destruct (String.eqb_spec (strings.TrimSpace b) EmptyString) as [E|E]; simpl in Hk.
      - right. split; [by right | done].
      - destruct (decide (strings.TrimSpace b = k)) as [<-|Hd].
        + rewrite lookup_insert_eq in Hk. injection Hk as <-. by left.
        + rewrite lookup_insert_ne in Hk by done. right. split; [left; congruence | done]. }
    + split; [done|]. exists (length hs), h. split_and!; [apply Hsnoc; by right | done |].
      intros j h' v' Hj Hl. apply lookup_lt_Some in Hl. rewrite length_app in Hl. simpl in Hl. lia.
    + apply Hlook in Hk1 as (Hk2 & i & h0 & Hi & Hn0 & Hlast).
      split; [done|]. exists i, h0. split_and!; [apply Hsnoc; by left | done |].
      intros j h' v' Hj Hl Hn'. apply Hsnoc in Hl as [Hl|[-> ->]].
      * by apply (Hlast j h' v').
      * destruct (normalized_entry_fun _ _ _ _ _ Hne Hn') as [E _].
        destruct Hk0 as [Hk0|Hk0]; congruence.
  - (* the last entry of a key is bound in the map *)
    intros (Hk0 & i & h0 & Hi & Hn0 & Hlast). apply Hsnoc in Hi as [Hi|[-> ->]].
    + assert (k ≠ strings.TrimSpace b) as Hd.
      { intros ->. apply (Hlast (length hs) h (strings.TrimSpace a)); [|apply Hsnoc; by right|done].
        by apply lookup_lt_Some in Hi. }
      assert (m !! k = Some v) as Hmk.
      { apply Hlook. split; [done|]. exists i, h0. split_and!; try done.
        intros j h' v' Hj Hl. apply (Hlast j h' v' Hj). apply Hsnoc. by left. }
      destruct (negb _); [|done]. by rewrite lookup_insert_ne.
    + destruct (normalized_entry_fun _ _ _ _ _ Hne Hn0) as [<- <-].
      destruct (String.eqb_spec (strings.TrimSpace b) EmptyString) as [E|E]; [done|].
      simpl. by rewrite lookup_insert_eq.
Qed.

(** C5: on entries that all hold a colon the normalizer ends with a map in
    which a key is bound exactly when it is not empty and some entry stands
    for it (control bytes 0x00 to 0x1F removed, split on the first colon,
    both sides trimmed), the value being that of the last such entry; no
    stored key or value holds a control byte or has white space around it. *)
Theorem convertToMapAndSanitize_spec (hs : list string) :
  Forall (λ h, ":"%char ∈ bytes h) hs →
  ∃ m, convertToMapAndSanitize hs = Done m
    ∧ (∀ k v, m !! k = Some v ↔
         k ≠ EmptyString ∧ ∃ i h, hs !! i = Some h ∧ normalized_entry h k v
           ∧ ∀ j h' v', i < j → hs !! j = Some h' → ¬ normalized_entry h' k v')
    ∧ (∀ k v, m !! k = Some v → clean k ∧ clean v).
Proof.
  intros Hall. destruct (for_range_sanitize_entry hs Hall) as (m & Hm & Hlook).
  exists m. split_and!; [done | done |].
  intros k v Hk. apply Hlook in Hk as (_ & i & h & _ & Hn & _).
  by apply (normalized_entry_clean h).
Qed.

Lemma convertToMapAndSanitize_spec_witness :
  ∃ m, convertToMapAndSanitize ["X-Foo: 1"; "X-Foo: 2"] = Done m
       ∧ m !! "X-Foo" = Some "2".
Proof.
  destruct (convertToMapAndSanitize_spec ["X-Foo: 1"; "X-Foo: 2"]) as (m & Hm & Hlook & _).
  { repeat constructor; apply (bool_decide_unpack _); vm_compute; exact I. }
  exists m. split; [exact Hm|]. apply Hlook. split; [discriminate|].
  exists 1, "X-Foo: 2". split; [reflexivity|]. split.
  - exists "X-Foo", " 2". split; [split|split; reflexivity].
    + reflexivity.
    + apply (bool_decide_unpack _). vm_compute. exact I.
  - intros j h' v' Hj Hl. destruct j as [|[|j]]; [lia | lia | discriminate Hl].
Defined.

(** The two examples of the specification, run. *)
Example convertToMapAndSanitize_last_wins :
  convertToMapAndSanitize ["X-Foo: 1"; "X-Foo: 2"] = Done {[ "X-Foo" := "2" ]}.
Proof. vm_compute. reflexivity. Qed.

Example convertToMapAndSanitize_control :
  convertToMapAndSanitize ["X-Foo: a" +:+ String "001" "b"] = Done {[ "X-Foo" := "ab" ]}.
Proof. vm_compute. reflexivity. Qed.

(** ** The request that is built *)

Lemma Values_Add (h : textproto.MIMEHeader) (k v k' : string) :
  textproto.Values (textproto.Add h k v) k' =
  textproto.Values h k' ++
  (if decide (textproto.CanonicalMIMEHeaderKey k = textproto.CanonicalMIMEHeaderKey k')
   then [v] else []).
Proof.
  unfold textproto.Values, textproto.Add. cbv zeta. case_decide as E.
  - rewrite <- E. by rewrite lookup_insert_eq.
  - rewrite lookup_insert_ne by done. by rewrite app_nil_r.
Qed.

Lemma values_for_cons (k' : string) (kv : string * string) (hs : list (string * string)) :
  values_for k' (kv :: hs) =
  (if decide (textproto.CanonicalMIMEHeaderKey kv.1 = textproto.CanonicalMIMEHeaderKey k')
   then [kv.2] else []) ++ values_for k' hs.
Proof. unfold values_for. rewrite filter_cons. by case_decide. Qed.

Lemma values_for_elem (k v : string) (hs : list (string * string)) :
  (k, v) ∈ hs → v ∈ values_for k hs.
Proof.
  intros H. unfold values_for. apply list_elem_of_fmap. exists (k, v).
  split; [done|]. by apply list_elem_of_filter.
Qed.

(** The first loop adds every header of the event and touches nothing
    else. *)
Lemma add_event_headers_spec (hs : list (string * string)) (req : http.Request) :
  let req' := add_event_headers req hs in
  http.Method req' = http.Method req ∧ http.URL req' = http.URL req
  ∧ http.Body req' = http.Body req ∧ http.Host req' = http.Host req
  ∧ ∀ k, textproto.Values (http.Header req') k =
         textproto.Values (http.Header req) k ++ values_for k hs.
Proof.
  revert req. induction hs as [|kv hs IH]; intros req; simpl.
  { split_and!; try done. intros k. by rewrite app_nil_r. }
  destruct (IH (http.Header_Add req kv.1 kv.2)) as (-> & -> & -> & -> & HV).
  split_and!; try done. intros k.
  rewrite HV, values_for_cons. simpl. by rewrite Values_Add, app_assoc.
Qed.

(** The second loop adds the client's headers but for those named "host",
    the last of which is written to the Host field. *)
Lemma add_custom_headers_spec (hs : list (string * string)) (req : http.Request) :
  let req' := add_custom_headers req hs in
  http.Method req' = http.Method req ∧ http.URL req' = http.URL req
  ∧ http.Body req' = http.Body req
  ∧ http.Host req' = default (http.Host req) (last (filter (λ kv, host_like kv.1 = true) hs).*2)
  ∧ ∀ k, textproto.Values (http.Header req') k =
         textproto.Values (http.Header req) k
         ++ values_for k (filter (λ kv, host_like kv.1 = false) hs).
Proof.
  revert req. induction hs as [|kv hs IH]; intros req; simpl.
  { split_and!; try done. intros k. by rewrite app_nil_r. }
  fold (host_like kv.1). rewrite !filter_cons.
  destruct (host_like kv.1) eqn:E; simpl.
  - destruct (IH (http.set_Host req kv.2)) as (-> & -> & -> & -> & HV).
    split_and!; try done.
    + rewrite last_cons. unfold fmap. by destruct (last _).
  - destruct (IH (http.Header_Add req kv.1 kv.2)) as (-> & -> & -> & -> & HV).
    split_and!; try done. intros k.
    rewrite HV, values_for_cons. simpl. by rewrite Values_Add, app_assoc.
Qed.

(** What is in the request a call builds, in terms of the client and the
    event. *)
Lemma outgoing_spec (env : Env) (c : EndpointClient) (evtCtx : eventContext) (req : http.Request) :
  outgoing env c evtCtx = inl req →
  ∃ u, url_Parse env (URL c) = inl u
    ∧ http.Method req = "POST"
    ∧ http.URL req = http.with_host u (http.removeEmptyPort (url.Host u))
    ∧ http.Body req = requestBody evtCtx
    ∧ http.Host req =
        default (http.removeEmptyPort (url.Host u))
          (last (filter (λ kv, host_like kv.1 = true) (range_order env 1 (headers c))).*2)
    ∧ ∀ k, textproto.Values (http.Header req) k =
           values_for k (range_order env 0 (requestHeaders evtCtx))
           ++ values_for k (filter (λ kv, host_like kv.1 = false)
                                   (range_order env 1 (headers c))).
Proof.
  unfold outgoing, http.NewRequest. simpl.
  destruct (url_Parse env (URL c)) as [u|err]; [|done]. intros [= <-].
  exists u. split; [done|].
  match goal with |- context [add_custom_headers (add_event_headers ?r ?oe) ?oc] =>
    destruct (add_custom_headers_spec oc (add_event_headers r oe)) as (-> & -> & -> & -> & HV);
    destruct (add_event_headers_spec oe r) as (-> & -> & -> & -> & HV') end.
  split_and!; try done. intros k. rewrite HV, HV'. done.
Qed.

Lemma outgoing_error (env : Env) (c : EndpointClient) (evtCtx : eventContext) (err : error) :
  outgoing env c evtCtx = inr err ↔ url_Parse env (URL c) = inr err.
Proof.
  unfold outgoing, http.NewRequest. simpl.
  destruct (url_Parse env (URL c)) as [u|err']; [done|]. split; by intros [= ->].
Qed.

(** [Post], run: a client whose bundle has a logger and a transport. *)
Lemma Post_run (env : Env) (σ : Store) (c : EndpointClient) (evtCtx : eventContext)
    (b : EndpointConfig) (logger : log.Logger) (client : http.Client) :
  bundle_of σ c = Some b → Log b = Some logger → HTTPClient b = Some client →
  let line := EvDebug logger [("prefix", "proxy.EndpointClient.Post")]
                      "Forwarding event to local endpoint" in
  Post env σ c evtCtx =
  match outgoing env c evtCtx with
  | inr err => ([line], Done (Some err))
  | inl req =>
      match client_Do env client req with
      | inr err =>
          match OutCh b with
          | Some ch => ([line; EvDo client req;
                         EvSend ch (ErrorElement (FailedToPostError err))], Done (Some err))
          | None => ([line; EvDo client req], Blocked)
          end
      | inl resp =>
          match ResponseHandler b with
          | Some handler =>
              (line :: EvDo client req :: EvProcessResponse evtCtx (URL c) resp
                 :: (EvEffect <$> ProcessResponse handler evtCtx (URL c) resp)
                 ++ [EvClose resp], Done None)
          | None => ([line; EvDo client req; EvClose resp], Panic NilDereference)
          end
      end
  end.
Proof.
  intros Hb Hl Hc. unfold Post, outgoing, deref. unfold bundle_of in Hb.
  rewrite Hb. simpl. rewrite Hl. simpl.
  destruct (http.NewRequest _ _ _ _) as [req|err]; [|done].
  rewrite Hc. simpl.
  destruct (client_Do env client _) as [resp|err].
  - destruct (ResponseHandler b) as [handler|]; simpl; [|done].
    by rewrite app_nil_r.
  - by destruct (OutCh b).
Qed.

(** [PostV2], run. *)
Lemma PostV2_run (env : Env) (σ : Store) (c : EndpointClient) (evtCtx : eventContext) :
  PostV2 env σ c evtCtx =
  match outgoing env c evtCtx with
  | inr err => ([], Done (Some err))
  | inl req =>
      match client_Do env http.DefaultClient req with
      | inr err =>
          match bundle_of σ c with
          | None => ([EvDo http.DefaultClient req], Panic NilDereference)
          | Some b =>
              match OutCh b with
              | Some ch => ([EvDo http.DefaultClient req;
                             EvSend ch (ErrorElement (FailedToPostError err))], Done (Some err))
              | None => ([EvDo http.DefaultClient req], Blocked)
              end
          end
      | inl resp =>
          match bundle_of σ c ≫= ResponseHandler with
          | Some handler =>
              (EvDo http.DefaultClient req :: EvProcessResponse evtCtx (URL c) resp
                 :: (EvEffect <$> ProcessResponse handler evtCtx (URL c) resp)
                 ++ [EvClose resp], Done None)
          | None => ([EvDo http.DefaultClient req; EvClose resp], Panic NilDereference)
          end
      end
  end.
Proof.
  unfold PostV2, outgoing, deref, bundle_of.
  destruct (http.NewRequest _ _ _ _) as [req|err]; [|done]. simpl.
  destruct (client_Do env http.DefaultClient _) as [resp|err].
  - destruct (cfg c ≫= _) as [b|]; simpl; [|done].
    destruct (ResponseHandler b) as [handler|]; simpl; [|done].
    by rewrite app_nil_r.
  - destruct (cfg c ≫= _) as [b|]; simpl; [|done]. by destruct (OutCh b).
Qed.

(** An entry of a map is visited by [range], whatever the order. *)
Lemma range_order_elem (env : Env) (n : nat) (m : gmap string string) (k v : string) :
  (k, v) ∈ range_order env n m ↔ m !! k = Some v.
Proof. rewrite (range_order_perm env n m). apply elem_of_map_to_list. Qed.

(** ** Collisions of keys *)

(** C2 (as amended): when a key of the client's headers, not "host", is also
    a key of the event's headers, the request [Post] hands to the transport
    carries both values under that key, the event's before the client's: the
    client's value is appended, the event's value is not replaced. *)
Theorem Post_collision_appends (env : Env) (σ : Store) (c : EndpointClient)
    (evtCtx : eventContext) (b : EndpointConfig) (logger : log.Logger)
    (client : http.Client) (u : url.URL) (k ve vc : string) :
  bundle_of σ c = Some b → Log b = Some logger → HTTPClient b = Some client →
  url_Parse env (URL c) = inl u →
  requestHeaders evtCtx !! k = Some ve → headers c !! k = Some vc →
  host_like k = false →
  ∃ req l1 l2 l3,
    requests_of (Post env σ c evtCtx).1 = [req]
    ∧ textproto.Values (http.Header req) k = l1 ++ ve :: l2 ++ vc :: l3.
Proof.
  intros Hb Hl Hc Hu He Hh Hk.
  rewrite (Post_run env σ c evtCtx b logger client Hb Hl Hc). cbv zeta.
  destruct (outgoing env c evtCtx) as [req|err] eqn:Ho.
  2: { apply outgoing_error in Ho. congruence. }
  destruct (outgoing_spec env c evtCtx req Ho) as (_ & _ & _ & _ & _ & _ & HV).
  assert (ve ∈ values_for k (range_order env 0 (requestHeaders evtCtx))) as H1.
  { apply values_for_elem. by apply range_order_elem. }
  assert (vc ∈ values_for k (filter (λ kv, host_like kv.1 = false)
                                    (range_order env 1 (headers c)))) as H2.
  { apply values_for_elem, list_elem_of_filter. split; [done|]. by apply range_order_elem. }
  apply list_elem_of_split in H1 as (l1 & l2 & H1).
  apply list_elem_of_split in H2 as (l2' & l3 & H2).
  exists req, l1, (l2 ++ l2'), l3. split.
  - destruct (client_Do env client req) as [resp|e].
    + destruct (ResponseHandler b); simpl; [|done].
      unfold requests_of. rewrite omap_app. simpl.
      by induction (ProcessResponse _ _ _ _).
    + by destruct (OutCh b).
  - rewrite HV, H1, H2. by rewrite <- !app_assoc.
Qed.

Lemma Post_collision_appends_witness :
  ∃ req l1 l2 l3,
    requests_of (Post env_ok example_store (example_client {[ "X-Foo" := "2" ]})
                      example_event).1 = [req]
    ∧ textproto.Values (http.Header req) "X-Foo" = l1 ++ "1" :: l2 ++ "2" :: l3.
Proof.
  apply (Post_collision_appends env_ok example_store (example_client {[ "X-Foo" := "2" ]})
           example_event example_bundle
           (log.mkLogger (io.Stream "stderr") 5) (http.mkClient None None (5 * Second))
           (url.mkURL "http" "localhost:3000" "/hook" EmptyString) "X-Foo" "1" "2");
    reflexivity.
Defined.

(** C2 (as stated) fails: the event carries [X-Foo: 1], the client
    [X-Foo: 2]; the request that is sent carries both values under [X-Foo],
    and the first value, the one [Get] returns, is the event's. *)
Lemma Post_collision_keeps_event_value :
  convertToMapAndSanitize ["X-Foo: 2"] = Done (headers (example_client {[ "X-Foo" := "2" ]}))
  ∧ requestHeaders example_event !! "X-Foo" = Some "1"
  ∧ headers (example_client {[ "X-Foo" := "2" ]}) !! "X-Foo" = Some "2"
  ∧ (λ req, textproto.Values (http.Header req) "X-Foo") <$>
      requests_of (Post env_ok example_store (example_client {[ "X-Foo" := "2" ]})
                        example_event).1 = [["1"; "2"]]
  ∧ (λ req, textproto.Get (http.Header req) "X-Foo") <$>
      requests_of (Post env_ok example_store (example_client {[ "X-Foo" := "2" ]})
                        example_event).1 = ["1"].
Proof. split_and!; vm_compute; reflexivity. Qed.

(** ** Results and records of a call *)

(** The effects of a handler are neither requests, sends nor calls. *)
Lemma observe_effects (l : list Effect) :
  requests_of (EvEffect <$> l) = [] ∧ sends_of (EvEffect <$> l) = []
  ∧ handler_calls (EvEffect <$> l) = [] ∧ closed_bodies (EvEffect <$> l) = []
  ∧ debug_lines (EvEffect <$> l) = [] ∧ transports_of (EvEffect <$> l) = []
  ∧ effects_of (EvEffect <$> l) = l.
Proof.
  split_and!; (induction l as [|x l IH]; [done|]).
  1-6: exact IH.
  unfold effects_of in *. simpl. f_equal. exact IH.
Qed.




(** ** The Host field *)

(** Canonical form changes the case of letters, nothing else. *)
Lemma ToLower_canonical_from (upper : bool) (s : string) :
  strings.ToLower (textproto.canonical_from upper s) = strings.ToLower s.
Proof.
  revert upper. induction s as [|c s IH]; intros upper; [done|].
  cbn [textproto.canonical_from strings.ToLower]. cbv zeta. rewrite IH. f_equal.
  destruct upper; destruct c as [[] [] [] [] [] [] [] []]; reflexivity.
Qed.

Lemma ToLower_canonical (k : string) :
  strings.ToLower (textproto.CanonicalMIMEHeaderKey k) = strings.ToLower k.
Proof.
  unfold textproto.CanonicalMIMEHeaderKey.
  destruct (textproto.all_valid k); [apply ToLower_canonical_from | done].
Qed.

Lemma host_like_canonical (k k' : string) :
  textproto.CanonicalMIMEHeaderKey k = textproto.CanonicalMIMEHeaderKey k' →
  host_like k = host_like k'.
Proof.
  intros H. unfold host_like.
  by rewrite <- (ToLower_canonical k), <- (ToLower_canonical k'), H.
Qed.

(** Headers that are not named "host" give no value to a key that is. *)
Lemma values_for_host (k : string) (hs : list (string * string)) :
  host_like k = true → values_for k (filter (λ kv, host_like kv.1 = false) hs) = [].
Proof.
  intros Hk. induction hs as [|kv hs IH]; [done|].
  rewrite filter_cons. case_decide as E1; [|exact IH].
  rewrite values_for_cons. case_decide as E2; [|exact IH].
  rewrite (host_like_canonical _ _ E2) in E1. congruence.
Qed.

(** The requests [Post] and [PostV2] hand to a transport are the request
    they have built. *)
Lemma Post_requests (env : Env) (σ : Store) (c : EndpointClient) (evtCtx : eventContext)
    (req : http.Request) :
  req ∈ requests_of (Post env σ c evtCtx).1 → outgoing env c evtCtx = inl req.
Proof.
  destruct (bundle_of σ c) as [b|] eqn:Hb.
  2: { unfold Post, deref. unfold bundle_of in Hb. rewrite Hb. simpl. by intros ?%elem_of_nil. }
  destruct (Log b) as [logger|] eqn:Hl.
  2: { unfold Post, deref. unfold bundle_of in Hb. rewrite Hb. simpl. rewrite Hl. simpl.
       by intros ?%elem_of_nil. }
  destruct (HTTPClient b) as [client|] eqn:Hc.
  2: { unfold Post, deref. unfold bundle_of in Hb. rewrite Hb. simpl. rewrite Hl. simpl.
       destruct (http.NewRequest _ _ _ _); [rewrite Hc|]; simpl; by intros ?%elem_of_nil. }
  rewrite (Post_run env σ c evtCtx b logger client Hb Hl Hc). cbv zeta.
  destruct (outgoing env c evtCtx) as [req'|err]; [|by intros ?%elem_of_nil].
  assert (∀ line t, req ∈ requests_of (EvDebug logger line.1 line.2 :: EvDo client req' :: t) →
               requests_of t = [] → inl req' = (inl req : http.Request + error)) as Hone.
  { intros line t H Ht. change (req ∈ req' :: requests_of t) in H. rewrite Ht in H.
    by apply list_elem_of_singleton in H as ->. }
  specialize (Hone ([("prefix", "proxy.EndpointClient.Post")],
                    "Forwarding event to local endpoint")).
  destruct (client_Do env client req') as [resp|err].
  - destruct (ResponseHandler b) as [handler|]; intros H.
    + apply (Hone _ H). unfold requests_of. simpl. rewrite omap_app. simpl.
      rewrite app_nil_r. apply observe_effects.
    + by apply (Hone _ H).
  - destruct (OutCh b); intros H; by apply (Hone _ H).
Qed.

Lemma PostV2_requests (env : Env) (σ : Store) (c : EndpointClient) (evtCtx : eventContext)
    (req : http.Request) :
  req ∈ requests_of (PostV2 env σ c evtCtx).1 → outgoing env c evtCtx = inl req.
Proof.
  rewrite PostV2_run.
  destruct (outgoing env c evtCtx) as [req'|err]; [|by intros ?%elem_of_nil].
  assert (∀ t, req ∈ requests_of (EvDo http.DefaultClient req' :: t) → requests_of t = [] →
               inl req' = (inl req : http.Request + error)) as Hone.
  { intros t H Ht. change (req ∈ req' :: requests_of t) in H. rewrite Ht in H.
    by apply list_elem_of_singleton in H as ->. }
  destruct (client_Do env http.DefaultClient req') as [resp|err].
  - destruct (bundle_of σ c ≫= ResponseHandler) as [handler|]; intros H.
    + apply (Hone _ H). unfold requests_of. simpl. rewrite omap_app. simpl.
      rewrite app_nil_r. apply observe_effects.
    + by apply (Hone _ H).
  - destruct (bundle_of σ c) as [b|]; [destruct (OutCh b)|]; intros H; by apply (Hone _ H).
Qed.

(** C4 (as amended): a client header whose key is "host" but for the case of
    its letters is not added to the header set of the request [Post] or
    [PostV2] builds (under that key the set holds what the event gave, no
    more); the Host field of the request is the value of such a header of the
    client, the last one [range] visits, and so of this very header when no
    other key of the client is "host" but for the case. *)
Theorem host_header_redirected (env : Env) (σ : Store) (c : EndpointClient)
    (evtCtx : eventContext) (req : http.Request) (k v : string) :
  req ∈ requests_of (Post env σ c evtCtx).1 ∨ req ∈ requests_of (PostV2 env σ c evtCtx).1 →
  headers c !! k = Some v → host_like k = true →
  textproto.Values (http.Header req) k = values_for k (range_order env 0 (requestHeaders evtCtx))
  ∧ (∃ k' v',
       last (filter (λ kv, host_like kv.1 = true) (range_order env 1 (headers c)))
         = Some (k', v')
       ∧ headers c !! k' = Some v' ∧ host_like k' = true ∧ http.Host req = v')
  ∧ ((∀ k', host_like k' = true → is_Some (headers c !! k') → k' = k) → http.Host req = v).
Proof.
  intros Hreq Hk Hh.
  assert (outgoing env c evtCtx = inl req) as Ho.
  { destruct Hreq; [by apply Post_requests with σ | by apply PostV2_requests with σ]. }
  destruct (outgoing_spec env c evtCtx req Ho) as (u & _ & _ & _ & _ & HH & HV).
  split; [by rewrite HV, values_for_host, app_nil_r|].
  set (hosts := filter (λ kv, host_like kv.1 = true) (range_order env 1 (headers c))) in *.
  assert ((k, v) ∈ hosts) as Hin.
  { apply list_elem_of_filter. split; [done | by apply range_order_elem]. }
  assert (∃ k' v', last hosts = Some (k', v')) as (k' & v' & Hlast).
  { destruct (last hosts) as [[k' v']|] eqn:E; [by eauto|].
    apply last_None in E. rewrite E in Hin. by apply elem_of_nil in Hin. }
  assert (http.Host req = v') as ->.
  { rewrite HH, fmap_last, Hlast. done. }
  assert ((k', v') ∈ hosts) as Hin'.
  { apply last_Some in Hlast as [l ->]. apply elem_of_app. right. apply list_elem_of_singleton. done. }
  apply list_elem_of_filter in Hin' as [Hh' Hin']. apply range_order_elem in Hin'.
  split; [by exists k', v'|].
  intros Huniq. assert (k' = k) as -> by (by apply Huniq). congruence.
Qed.

Lemma host_header_redirected_witness :
  textproto.Values (http.Header example_host_request) "Host" = []
  ∧ http.Host example_host_request = "example.com".
Proof.
  destruct (host_header_redirected env_ok example_store example_host_client example_event
              example_host_request "Host" "example.com") as (HV & _ & HH).
  - left. vm_compute. left.
  - reflexivity.
  - reflexivity.
  - split; [exact HV|]. apply HH. intros k' _ [v' Hv'].
    change (({[ "Host" := "example.com" ]} : gmap string string) !! k' = Some v') in Hv'.
    apply lookup_singleton_Some in Hv' as [<- _]. reflexivity.
Defined.

(** C4 (as stated) fails: the client has the headers [Host: a.example] and
    [host: b.example], both "host" but for the case.  Whichever of the two
    orders [range] visits them in, the Host field of the request is the value
    of one header and not of the other. *)
Lemma two_host_headers_one_wins :
  convertToMapAndSanitize ["Host: a.example"; "host: b.example"]
    = Done (headers example_two_hosts_client)
  ∧ headers example_two_hosts_client !! "Host" = Some "a.example"
  ∧ headers example_two_hosts_client !! "host" = Some "b.example"
  ∧ host_like "Host" = true ∧ host_like "host" = true
  ∧ http.Host <$> requests_of (Post env_ok example_store example_two_hosts_client
                                    example_event).1 = ["a.example"]
  ∧ http.Host <$> requests_of (Post env_ok_reversed example_store example_two_hosts_client
                                    example_event).1 = ["b.example"].
Proof. split_and!; vm_compute; reflexivity. Qed.

(** ** The two ways to send *)

Lemma through_effects (client : http.Client) (l : list Effect) :
  through client (EvEffect <$> l) = EvEffect <$> l.
Proof. induction l as [|x l IH]; [done|]. unfold through in *. simpl. f_equal. exact IH. Qed.

(** C9: for a client whose bundle has a logger and a transport, and a world
    in which the default transport answers the request as the client's
    transport does, [PostV2] ends as [Post] does and builds the same request
    (method POST, the body of the event); their traces are the same but for
    the transport named in them and the debug line, which [Post] alone
    asks for; [PostV2] uses no transport but the default one. *)
Theorem PostV2_like_Post (env : Env) (σ : Store) (c : EndpointClient) (evtCtx : eventContext)
    (b : EndpointConfig) (logger : log.Logger) (client : http.Client) :
  bundle_of σ c = Some b → Log b = Some logger → HTTPClient b = Some client →
  (∀ req, outgoing env c evtCtx = inl req →
          client_Do env http.DefaultClient req = client_Do env client req) →
  let v1 := Post env σ c evtCtx in
  let v2 := PostV2 env σ c evtCtx in
  v2.2 = v1.2
  ∧ requests_of v2.1 = requests_of v1.1
  ∧ (∀ req, req ∈ requests_of v2.1 →
       http.Method req = "POST" ∧ http.Body req = requestBody evtCtx)
  ∧ through client v2.1 = through client v1.1
  ∧ sends_of v2.1 = sends_of v1.1
  ∧ handler_calls v2.1 = handler_calls v1.1
  ∧ debug_lines v2.1 = [] ∧ debug_lines v1.1 = ["Forwarding event to local endpoint"]
  ∧ (∀ t, t ∈ transports_of v2.1 → t = http.DefaultClient)
  ∧ (∀ t, t ∈ transports_of v1.1 → t = client).
Proof.
  intros Hb Hl Hc Hsame v1 v2. subst v1 v2.
  rewrite (Post_run env σ c evtCtx b logger client Hb Hl Hc), PostV2_run. cbv zeta.
  rewrite Hb. simpl.
  destruct (outgoing env c evtCtx) as [req|err] eqn:Ho.
  2: { split_and!; try done; by intros ? ?%elem_of_nil. }
  destruct (outgoing_spec env c evtCtx req Ho) as (_ & _ & Hm & _ & Hbody & _).
  rewrite (Hsame req eq_refl).
  destruct (client_Do env client req) as [resp|err].
  - destruct (ResponseHandler b) as [handler|].
    + destruct (observe_effects (ProcessResponse handler evtCtx (URL c) resp))
        as (Hr & Hs & Hcalls & _ & Hd & Ht & _).
      pose proof (through_effects client (ProcessResponse handler evtCtx (URL c) resp)) as Hth.
      unfold requests_of, sends_of, handler_calls, debug_lines, transports_of, through in *.
      simpl. rewrite !omap_app, ?Hr, ?Hs, ?Hcalls, ?Hd, ?Ht, ?Hth. simpl.
      split_and!; try done; intros t ->%list_elem_of_singleton; done.
    + split_and!; try done; intros t ->%list_elem_of_singleton; done.
  - destruct (OutCh b); (split_and!; try done);
      intros t ->%list_elem_of_singleton; done.
Qed.

Lemma PostV2_like_Post_witness :
  (PostV2 env_refused example_store (example_client ∅) example_event).2 =
  (Post env_refused example_store (example_client ∅) example_event).2
  ∧ sends_of (PostV2 env_refused example_store (example_client ∅) example_event).1 =
    sends_of (Post env_refused example_store (example_client ∅) example_event).1.
Proof.
  destruct (PostV2_like_Post env_refused example_store (example_client ∅) example_event
              example_bundle (log.mkLogger (io.Stream "stderr") 5)
              (http.mkClient None None (5 * Second)) eq_refl eq_refl eq_refl)
    as (H2 & _ & _ & _ & Hs & _).
  - intros req _. reflexivity.
  - split; [exact H2 | exact Hs].
Defined.

(** ** The constructor *)

(** One defaulting step: the field is read through the pointer and written
    only when it is [nil]. *)
Lemma fill_step {A B} (get : EndpointConfig → option A) (set : EndpointConfig → EndpointConfig)
    (k : St B) (σ : Store) (l : loc) (b : EndpointConfig) :
  σ !! l = Some b →
  (b' ← load (Some l);
   match get b' with
   | None => store (Some l) (set b')
   | Some _ => mret tt
   end;; k) σ =
  k (<[l := match get b with None => set b | Some _ => b end]> σ).
Proof.
  intros H. unfold mbind, St_bind, load. simpl. rewrite H.
  destruct (get b); simpl; [by rewrite insert_id | done].
Qed.

(** The constructor, run on a bundle that is there. *)
Lemma NewEndpointClient_run (url : string) (hs : list string) (connect : bool)
    (evs : list string) (isED : bool) (σ : Store) (l : loc) (b0 : EndpointConfig) :
  σ !! l = Some b0 →
  let b1 := match Log b0 with
            | None => set_Log b0 (log.mkLogger io.Discard 0) | Some _ => b0 end in
  let b2 := match HTTPClient b1 with
            | None => set_HTTPClient b1
                        (http.mkClient None (Some (λ req via, Some http.ErrUseLastResponse))
                                       defaultTimeout)
            | Some _ => b1 end in
  let b3 := match ResponseHandler b2 with
            | None => set_ResponseHandler b2 (EndpointResponseHandlerFunc (λ _ _ _, []))
            | Some _ => b2 end in
  NewEndpointClient url hs connect evs isED (Some l) σ =
  (<[l := b3]> σ,
   res_bind (convertToMapAndSanitize hs)
     (λ hm, Done (mkEndpointClient url hm connect (convertToMap evs) (Some l) isED))).
Proof.
  intros H b1 b2 b3. unfold NewEndpointClient.
  change ((mret (Some l) : St (option loc)) ≫= ?k) with (λ σ, k (Some l) σ). cbv beta.
  rewrite (fill_step Log (λ b, set_Log b (log.mkLogger io.Discard 0)) _ σ l b0 H).
  rewrite (fill_step HTTPClient _ _ _ l b1) by apply lookup_insert_eq.
  rewrite (fill_step ResponseHandler _ _ _ l b2) by apply lookup_insert_eq.
  rewrite !insert_insert_eq. fold b1 b2 b3.
  unfold mbind, St_bind, lift, mret, St_ret. by destruct (convertToMapAndSanitize hs).
Qed.

(** The constructor called without a bundle makes an empty one at a new
    address and goes on as if it had been given it. *)
Lemma NewEndpointClient_nil (url : string) (hs : list string) (connect : bool)
    (evs : list string) (isED : bool) (σ : Store) :
  let l := fresh (dom σ) in
  σ !! l = None
  ∧ NewEndpointClient url hs connect evs isED None σ =
    NewEndpointClient url hs connect evs isED (Some l) (<[l := mkConfig None None None None]> σ).
Proof.
  split; [apply not_elem_of_dom, is_fresh | done].
Qed.

(** The constructor, run on what the caller supplies: the bundle of the
    client is the caller's with the three missing parts filled in. *)
Lemma NewEndpointClient_supplied (url : string) (hs : list string) (connect : bool)
    (evs : list string) (isED : bool) (p : option loc) (σ : Store) (b0 : EndpointConfig) :
  supplied σ p b0 →
  ∃ l,
    NewEndpointClient url hs connect evs isED p σ =
      (<[l := mkConfig
                (Some (default (http.mkClient None (Some (λ _ _, Some http.ErrUseLastResponse))
                                              defaultTimeout) (HTTPClient b0)))
                (Some (default (log.mkLogger io.Discard 0) (Log b0)))
                (Some (default (EndpointResponseHandlerFunc (λ _ _ _, []))
                               (ResponseHandler b0)))
                (OutCh b0)]> σ,
       res_bind (convertToMapAndSanitize hs)
         (λ hm, Done (mkEndpointClient url hm connect (convertToMap evs) (Some l) isED)))
    ∧ match p with Some l' => l' = l | None => σ !! l = None end.
Proof.
  intros Hs.
  assert (∃ l σ0, σ0 !! l = Some b0 ∧ <[l := b0]> σ = σ0
            ∧ NewEndpointClient url hs connect evs isED p σ =
              NewEndpointClient url hs connect evs isED (Some l) σ0
            ∧ match p with Some l' => l' = l | None => σ !! l = None end)
    as (l & σ0 & Hl & Hσ & -> & Hp).
  { destruct p as [l|]; simpl in Hs.
    - exists l, σ. split_and!; try done. by apply insert_id.
    - subst b0. destruct (NewEndpointClient_nil url hs connect evs isED σ) as [Hf ->].
      eexists _, _. split_and!; [apply lookup_insert_eq | done | done | done]. }
  rewrite (NewEndpointClient_run url hs connect evs isED σ0 l b0 Hl). cbv zeta.
  subst σ0. rewrite insert_insert_eq.
  exists l. split; [|done]. by destruct b0 as [[cl|] [lg|] [rh|] oc].
Qed.

(** C8: whatever bundle the constructor is given, or none, the client it
    returns points to a bundle (a new empty one when none was given, the
    caller's otherwise) whose logger, transport and response handler are set:
    a part the caller had set is kept; a missing logger is replaced by one
    that writes to [io.Discard], a missing transport by a client with a
    timeout of 30 seconds whose redirect policy always answers
    [ErrUseLastResponse], a missing handler by one that does nothing.  The
    client holds the normalized headers and the event set. *)
Theorem NewEndpointClient_defaults (url : string) (hs : list string) (connect : bool)
    (evs : list string) (isED : bool) (p : option loc) (σ : Store) (b0 : EndpointConfig) :
  supplied σ p b0 →
  ∃ l b,
    NewEndpointClient url hs connect evs isED p σ =
      (<[l := b]> σ,
       res_bind (convertToMapAndSanitize hs)
         (λ hm, Done (mkEndpointClient url hm connect (convertToMap evs) (Some l) isED)))
    ∧ match p with Some l' => l' = l | None => σ !! l = None end
    ∧ (∃ logger, Log b = Some logger
         ∧ match Log b0 with
           | Some x => logger = x
           | None => log.Out logger = io.Discard
           end)
    ∧ (∃ client, HTTPClient b = Some client
         ∧ match HTTPClient b0 with
           | Some x => client = x
           | None => http.Timeout client = (30 * Second)%Z
                     ∧ ∃ f, http.CheckRedirect client = Some f
                            ∧ ∀ req via, f req via = Some http.ErrUseLastResponse
           end)
    ∧ (∃ handler, ResponseHandler b = Some handler
         ∧ match ResponseHandler b0 with
           | Some x => handler = x
           | None => ∀ evtCtx u resp, ProcessResponse handler evtCtx u resp = []
           end)
    ∧ OutCh b = OutCh b0.
Proof.
  intros Hs.
  destruct (NewEndpointClient_supplied url hs connect evs isED p σ b0 Hs) as (l & Hrun & Hp).
  eexists l, _. split; [exact Hrun|]. split; [done|].
  destruct b0 as [[cl|] [lg|] [rh|] oc]; simpl; split_and!; try done; eauto 10.
Qed.

Lemma NewEndpointClient_defaults_witness :
  ∃ σ' c b,
    NewEndpointClient example_URL ["X-Foo: 2"] false ["*"] false (Some 7)
                      {[ 7 := mkConfig None None None (Some 1) ]} = (σ', Done c)
    ∧ bundle_of σ' c = Some b
    ∧ (log.Out <$> Log b) = Some io.Discard
    ∧ (http.Timeout <$> HTTPClient b) = Some (30 * Second)%Z
    ∧ OutCh b = Some 1.
Proof.
  destruct (NewEndpointClient_defaults example_URL ["X-Foo: 2"] false ["*"] false (Some 7)
              {[ 7 := mkConfig None None None (Some 1) ]} (mkConfig None None None (Some 1)))
    as (l & b & Hrun & <- & (lg & Hlg & Hout) & (cl & Hcl & Ht & _) & _ & Hch).
  { reflexivity. }
  eexists _, _, b. split; [exact Hrun|]. split.
  { unfold bundle_of. simpl. apply lookup_insert_eq. }
  rewrite Hlg, Hcl. simpl in *. rewrite Hout, Ht. done.
Defined.

(** A client the constructor returns has a bundle with a logger, a
    transport and a response handler: what the statements about [Post] and
    [PostV2] ask of a client. *)
Lemma NewEndpointClient_ready (url : string) (hs : list string) (connect : bool)
    (evs : list string) (isED : bool) (p : option loc) (σ σ' : Store) (b0 : EndpointConfig)
    (c : EndpointClient) :
  supplied σ p b0 →
  NewEndpointClient url hs connect evs isED p σ = (σ', Done c) →
  ∃ b logger client handler,
    bundle_of σ' c = Some b ∧ Log b = Some logger ∧ HTTPClient b = Some client
    ∧ ResponseHandler b = Some handler ∧ OutCh b = OutCh b0.
Proof.
  intros Hs Hrun.
  destruct (NewEndpointClient_supplied url hs connect evs isED p σ b0 Hs) as (l & Hrun' & _).
  rewrite Hrun in Hrun'. destruct (convertToMapAndSanitize hs) as [hm| |]; try done.
  simpl in Hrun'. injection Hrun' as -> ->.
  eexists _, _, _, _. split; [unfold bundle_of; simpl; apply lookup_insert_eq|].
  split_and!; reflexivity.
Qed.

(** The panic of the normalizer is the constructor's: no client is
    returned for a header without a colon. *)
Example NewEndpointClient_Bad_Header :
  (NewEndpointClient example_URL ["Bad-Header"] false ["*"] false None ∅).2
  = Panic (IndexOutOfRange 1 1).
Proof. reflexivity. Qed.

(** C10: when the bundle given to the constructor has no output channel, or
    no bundle is given, the bundle of the client still has none, although its
    logger, transport and response handler are all set; on such a client a
    failure of the transport takes [Post] and [PostV2] to a send on the [nil]
    channel, where they block for ever, no record being sent. *)
Theorem NewEndpointClient_no_channel (url : string) (hs : list string) (connect : bool)
    (evs : list string) (isED : bool) (p : option loc) (σ : Store) (b0 : EndpointConfig)
    (hm : gmap string string) :
  supplied σ p b0 → OutCh b0 = None → convertToMapAndSanitize hs = Done hm →
  ∃ σ' c b,
    NewEndpointClient url hs connect evs isED p σ = (σ', Done c)
    ∧ bundle_of σ' c = Some b
    ∧ OutCh b = None
    ∧ is_Some (Log b) ∧ is_Some (HTTPClient b) ∧ is_Some (ResponseHandler b)
    ∧ (∀ env evtCtx req client err,
         outgoing env c evtCtx = inl req → HTTPClient b = Some client →
         client_Do env client req = inr err →
         (Post env σ' c evtCtx).2 = Blocked ∧ sends_of (Post env σ' c evtCtx).1 = [])
    ∧ (∀ env evtCtx req err,
         outgoing env c evtCtx = inl req →
         client_Do env http.DefaultClient req = inr err →
         (PostV2 env σ' c evtCtx).2 = Blocked ∧ sends_of (PostV2 env σ' c evtCtx).1 = []).
Proof.
  intros Hs Hch Hhm.
  destruct (NewEndpointClient_supplied url hs connect evs isED p σ b0 Hs) as (l & Hrun & _).
  rewrite Hhm, Hch in Hrun. simpl in Hrun.
  match type of Hrun with _ = (<[l := ?b']> σ, _) => set (b := b') in * end.
  assert (∃ lg cl, Log b = Some lg ∧ HTTPClient b = Some cl ∧ OutCh b = None)
    as (lg & cl & Hlg & Hcl & Hout) by (by eexists _, _).
  eexists _, _, b. split; [exact Hrun|].
  assert (bundle_of (<[l := b]> σ)
            (mkEndpointClient url hm connect (convertToMap evs) (Some l) isED) = Some b) as Hb.
  { unfold bundle_of. simpl. apply lookup_insert_eq. }
  split_and!; try done; try by eexists.
  - intros env evtCtx req client err Ho Hc Hdo.
    rewrite (Post_run env _ _ evtCtx b lg client Hb Hlg Hc). cbv zeta.
    by rewrite Ho, Hdo, Hout.
  - intros env evtCtx req err Ho Hdo.
    rewrite PostV2_run, Ho, Hdo, Hb. by rewrite Hout.
Qed.

Lemma NewEndpointClient_no_channel_witness :
  ∃ σ' c,
    NewEndpointClient example_URL [] false ["*"] false None ∅ = (σ', Done c)
    ∧ (bundle_of σ' c ≫= OutCh) = None
    ∧ (Post env_refused σ' c example_event).2 = Blocked
    ∧ (PostV2 env_refused σ' c example_event).2 = Blocked.
Proof.
  destruct (NewEndpointClient_no_channel example_URL [] false ["*"] false None ∅
              (mkConfig None None None None) ∅ eq_refl eq_refl eq_refl)
    as (σ' & c & b & Hrun & Hb & Hch & _ & [cl Hcl] & _ & HPost & HPostV2).
  exists σ', c. split; [exact Hrun|]. split; [by rewrite Hb|].
  assert (c = mkEndpointClient example_URL ∅ false (convertToMap ["*"]) (cfg c) false) as Hc.
  { vm_compute in Hrun. injection Hrun as _ <-. reflexivity. }
  destruct (outgoing env_refused c example_event) as [req|err] eqn:Ho.
  - split.
    + apply (HPost env_refused example_event req cl refused Ho Hcl eq_refl).
    + apply (HPostV2 env_refused example_event req refused Ho eq_refl).
  - exfalso. rewrite Hc in Ho. vm_compute in Ho. discriminate Ho.
Defined.

(** * Further properties of the code *)

(** ** The event set *)

Lemma foldl_event_lookup (evs : list string) (m : gmap string bool) (k : string) :
  foldl (λ eventsMap event, <[event := true]> eventsMap) m evs !! k =
  if decide (k ∈ evs) then Some true else m !! k.
Proof.
  revert m. induction evs as [|e evs IH]; intros m; cbn [foldl].
  - case_decide as H; [by apply elem_of_nil in H | done].
  - rewrite IH. case_decide as H1; case_decide as H2; try done.
    + exfalso. apply H2. by right.
    + apply elem_of_cons in H2 as [->|H2]; [by rewrite lookup_insert_eq | done].
    + rewrite lookup_insert_ne; [done|]. intros ->. apply H2. left.
Qed.

(** X1: the event set [convertToMap] builds binds exactly the strings of the
    list, each to [true]: no key is bound to [false] and no other key is
    bound. *)
Theorem convertToMap_lookup (evs : list string) (k : string) :
  convertToMap evs !! k = if decide (k ∈ evs) then Some true else None.
Proof. unfold convertToMap. by rewrite foldl_event_lookup, lookup_empty. Qed.

(** X2: the order of the list and the repetitions in it do not matter: two
    lists with the same strings give the same event set, of as many keys as
    there are distinct strings. *)
Theorem convertToMap_same_elements (evs evs' : list string) :
  (∀ k, k ∈ evs ↔ k ∈ evs') →
  convertToMap evs = convertToMap evs'
  ∧ size (convertToMap evs) = length (remove_dups evs).
Proof.
  intros H. split.
  - apply map_eq. intros k. unfold convertToMap.
    rewrite !foldl_event_lookup, !lookup_empty.
    destruct (decide (k ∈ evs)) as [Hin|Hin].
    + by rewrite decide_True by (by apply H).
    + by rewrite decide_False by (by rewrite <- H).
  - assert (convertToMap evs = list_to_map ((λ e, (e, true)) <$> remove_dups evs)) as ->.
    { apply map_eq. intros k. unfold convertToMap.
      rewrite foldl_event_lookup, lookup_empty.
      destruct (decide (k ∈ evs)) as [Hin|Hin].
      - symmetry. apply elem_of_list_to_map.
        + rewrite <- list_fmap_compose. simpl. rewrite list_fmap_id. apply NoDup_remove_dups.
        + apply list_elem_of_fmap. exists k. split; [done|]. by apply elem_of_remove_dups.
      - symmetry. apply not_elem_of_list_to_map.
        rewrite <- list_fmap_compose. simpl. rewrite list_fmap_id.
        by rewrite elem_of_remove_dups. }
    rewrite map_size_list_to_map, length_fmap; [done|].
    rewrite <- list_fmap_compose. simpl. rewrite list_fmap_id. apply NoDup_remove_dups.
Qed.

Lemma convertToMap_same_elements_witness :
  convertToMap ["a"; "b"; "a"] = convertToMap ["b"; "a"]
  ∧ size (convertToMap ["a"; "b"; "a"]) = 2.
Proof.
  apply (convertToMap_same_elements ["a"; "b"; "a"] ["b"; "a"]).
  intros k. rewrite !elem_of_cons, !elem_of_nil. tauto.
Defined.

(** ** The header normalizer, as a whole *)

(** What one entry does to the map does not depend on the map. *)
Lemma sanitize_entry_union (h : string) (m0 m : gmap string string) :
  sanitize_entry (m0 ∪ m) h = res_bind (sanitize_entry m0 h) (λ m', Done (m' ∪ m)).
Proof.
  destruct (decide (":"%char ∈ bytes h)) as [Hc|Hc].
  - destruct (has_colon_splits h Hc) as (b & a & Hs).
    rewrite !(sanitize_entry_colon _ h b a Hs). simpl.
    destruct (negb _); [by rewrite insert_union_l | done].
  - by rewrite !sanitize_entry_no_colon.
Qed.

Lemma for_range_sanitize_union (hs : list string) (m0 m : gmap string string) :
  for_range hs sanitize_entry (m0 ∪ m) =
  res_bind (for_range hs sanitize_entry m0) (λ m', Done (m' ∪ m)).
Proof.
  revert m0. induction hs as [|h hs IH]; intros m0; simpl; [done|].
  rewrite sanitize_entry_union. destruct (sanitize_entry m0 h); simpl; [apply IH | done ..].
Qed.

(** The loop ends in one of two ways. *)
Lemma for_range_sanitize_outcome (hs : list string) (m : gmap string string) :
  (Forall has_colon hs ∧ ∃ m', for_range hs sanitize_entry m = Done m')
  ∨ (Exists (λ h, ¬ has_colon h) hs
     ∧ for_range hs sanitize_entry m = Panic (IndexOutOfRange 1 1)).
Proof.
  revert m. induction hs as [|h hs IH]; intros m; simpl.
  { left. split; [constructor | by eexists]. }
  destruct (decide (":"%char ∈ bytes h)) as [Hc|Hc].
  - destruct (has_colon_splits h Hc) as (b & a & Hs).
    rewrite (sanitize_entry_colon m h b a Hs). simpl.
    match goal with |- context [for_range hs sanitize_entry ?m1] =>
      destruct (IH m1) as [[Hall Hd]|[Hex Hp]] end.
    + left. split; [by constructor | done].
    + right. split; [by apply Exists_cons_tl | done].
  - right. split; [by apply Exists_cons_hd|]. by rewrite sanitize_entry_no_colon.
Qed.

Lemma for_range_sanitize_size (hs : list string) (m m' : gmap string string) :
  for_range hs sanitize_entry m = Done m' → (size m' ≤ size m + length hs)%nat.
Proof.
  revert m. induction hs as [|h hs IH]; intros m; simpl.
  { intros [= ->]. lia. }
  destruct (decide (":"%char ∈ bytes h)) as [Hc|Hc].
  - destruct (has_colon_splits h Hc) as (b & a & Hs).
    rewrite (sanitize_entry_colon m h b a Hs). simpl. intros H%IH.
    destruct (negb _); [|lia].
    rewrite map_size_insert in H. destruct (m !! _); simpl in H; lia.
  - by rewrite sanitize_entry_no_colon.
Qed.

(** X3: normalizing two sequences one after the other is normalizing each
    and laying the second map over the first; a panic in the first sequence
    is the panic of the whole, whatever follows. *)
Theorem convertToMapAndSanitize_app (hs1 hs2 : list string) :
  convertToMapAndSanitize (hs1 ++ hs2) =
  res_bind (convertToMapAndSanitize hs1) (λ m1,
  res_bind (convertToMapAndSanitize hs2) (λ m2, Done (m2 ∪ m1))).
Proof.
  unfold convertToMapAndSanitize. rewrite for_range_app.
  destruct (for_range hs1 sanitize_entry ∅) as [m1| |]; simpl; [|done ..].
  rewrite <- (left_id_L ∅ (∪) m1) at 1. apply for_range_sanitize_union.
Qed.

(** X4: in a map the normalizer returns no key is empty and no key holds a
    colon, and there are at most as many keys as there were entries. *)
Theorem convertToMapAndSanitize_keys (hs : list string) (m : gmap string string) :
  convertToMapAndSanitize hs = Done m →
  (∀ k, is_Some (m !! k) → k ≠ EmptyString ∧ ":"%char ∉ bytes k)
  ∧ (size m ≤ length hs)%nat.
Proof.
  intros Hm. split.
  - intros k [v Hk].
    destruct (for_range_sanitize_outcome hs ∅) as [[Hall _]|[_ Hp]].
    2: { unfold convertToMapAndSanitize in Hm. congruence. }
    destruct (for_range_sanitize_entry hs Hall) as (m' & Hm' & Hlook).
    unfold convertToMapAndSanitize in Hm. rewrite Hm in Hm'. injection Hm' as <-.
    apply Hlook in Hk as (Hne & _ & h & _ & (b & a & [_ Hn] & -> & _) & _).
    split; [done|]. intros Hc. by apply Hn, TrimSpace_bytes.
  - apply for_range_sanitize_size in Hm. by rewrite map_size_empty in Hm.
Qed.

Lemma convertToMapAndSanitize_keys_witness :
  (∀ k, is_Some (({[ "X-Foo" := "a:b" ]} : gmap string string) !! k) →
        k ≠ EmptyString ∧ ":"%char ∉ bytes k)
  ∧ (size ({[ "X-Foo" := "a:b" ]} : gmap string string) ≤ 2)%nat.
Proof.
  apply (convertToMapAndSanitize_keys [" : dropped"; "X-Foo: a:b"]). reflexivity.
Defined.

(** X5: the normalizer returns a map exactly when every entry holds a colon;
    otherwise it panics with the index 1 out of range for a slice of length 1;
    it never blocks. *)
Theorem convertToMapAndSanitize_outcome (hs : list string) :
  match convertToMapAndSanitize hs with
  | Done _ => Forall has_colon hs
  | Panic f => f = IndexOutOfRange 1 1 ∧ Exists (λ h, ¬ has_colon h) hs
  | Blocked => False
  end.
Proof.
  unfold convertToMapAndSanitize.
  destruct (for_range_sanitize_outcome hs ∅) as [[Hall [m' ->]]|[Hex ->]]; done.
Qed.

(** ** Written back and read again *)

Lemma string_of_bytes (s : string) : string_of_list_ascii (bytes s) = s.
Proof. induction s as [|c s IH]; simpl; [done | by rewrite IH]. Qed.

(** Nothing is dropped from a text that does not begin with a rune that
    passes. *)
Lemma drop_runes_id p1 p2 p3 (l : list ascii) :
  starts_run p1 p2 p3 l = false → strings.drop_runes p1 p2 p3 l = l.
Proof.
  destruct l as [|a [|b [|c r]]]; simpl; [done | ..].
  - by intros ->.
  - intros [-> ->]%orb_false_elim. done.
  - intros [[-> ->]%orb_false_elim ->]%orb_false_elim. done.
Qed.

(** A text without white space around it is left as it is. *)
Lemma TrimSpace_id (s : string) :
  starts_white (bytes s) = false → ends_white (bytes s) = false →
  strings.TrimSpace s = s.
Proof.
  intros Hs He. unfold strings.TrimSpace, strings.trim_left, strings.trim_right.
  rewrite (drop_runes_id _ _ _ _ Hs), (drop_runes_id _ _ _ _ He), rev_involutive.
  apply string_of_bytes.
Qed.

(** A space before such a text is trimmed. *)
Lemma TrimSpace_space (s : string) :
  starts_white (bytes s) = false → ends_white (bytes s) = false →
  strings.TrimSpace (String " " s) = s.
Proof.
  intros Hs He. rewrite <- (TrimSpace_id s Hs He) at 2. reflexivity.
Qed.

Lemma strip_controls_id (s : string) :
  (∀ c, c ∈ bytes s → is_control c = false) → strip_controls s = s.
Proof.
  induction s as [|c s IH]; simpl; [done|]. intros H.
  rewrite (H c) by left. f_equal. apply IH. intros d Hd. apply H. by right.
Qed.

(** A rendered header stands for its key and its value. *)
Lemma render_entry_normalized (k v : string) :
  ":"%char ∉ bytes k → clean k → clean v → normalized_entry (render_entry (k, v)) k v.
Proof.
  intros Hn (Hck & Hsk & Hek) (Hcv & Hsv & Hev).
  exists k, (String " " v). split_and!.
  - split; [|done]. unfold render_entry. simpl. apply strip_controls_id.
    intros c. rewrite bytes_app. simpl. rewrite elem_of_app, !elem_of_cons.
    intros [?|[->|[->|?]]]; auto.
  - by rewrite TrimSpace_id.
  - by rewrite TrimSpace_space.
Qed.

Lemma render_entry_colon (kv : string * string) : has_colon (render_entry kv).
Proof.
  unfold has_colon, render_entry. rewrite bytes_app. simpl.
  apply elem_of_app. right. left.
Qed.

(** The headers of a map, rendered in any order, normalize to the map. *)
Lemma render_entries_normalize (m : gmap string string) (l : list (string * string)) :
  (∀ k v, m !! k = Some v → k ≠ EmptyString ∧ (":"%char ∉ bytes k) ∧ clean k ∧ clean v) →
  l ≡ₚ map_to_list m →
  convertToMapAndSanitize (render_entry <$> l) = Done m.
Proof.
  intros Hm Hl.
  assert (∀ k v, (k, v) ∈ l ↔ m !! k = Some v) as Hin.
  { intros k v. rewrite Hl. apply elem_of_map_to_list. }
  assert (NoDup l.*1) as Hnd by (rewrite Hl; apply NoDup_fst_map_to_list).
  destruct (for_range_sanitize_entry (render_entry <$> l)) as (m' & Hrun & Hlook).
  { apply Forall_fmap, Forall_forall. intros kv _. apply render_entry_colon. }
  unfold convertToMapAndSanitize. rewrite Hrun. f_equal.
  assert (∀ i h, (render_entry <$> l) !! i = Some h →
            ∃ k v, l !! i = Some (k, v) ∧ m !! k = Some v
                   ∧ normalized_entry h k v) as Hentry.
  { intros i h Hi. apply list_lookup_fmap_Some in Hi as ([k v] & -> & Hi).
    exists k, v. assert (m !! k = Some v) as Hk by (apply Hin; by eapply list_elem_of_lookup_2).
    destruct (Hm k v Hk) as (_ & ? & ? & ?).
    split_and!; [done | done | by apply render_entry_normalized]. }
  apply map_eq. intros k. apply option_eq. intros v. rewrite Hlook. split.
  - intros (_ & i & h & Hi & Hn & _).
    destruct (Hentry i h Hi) as (k' & v' & _ & Hk' & Hn').
    by destruct (normalized_entry_fun _ _ _ _ _ Hn Hn') as [-> ->].
  - intros Hk. destruct (Hm k v Hk) as (Hne & Hc & Hclk & Hclv).
    apply Hin, list_elem_of_lookup_1 in Hk as [i Hi].
    split; [done|]. exists i, (render_entry (k, v)). split_and!.
    + by rewrite list_lookup_fmap, Hi.
    + by apply render_entry_normalized.
    + intros j h' v' Hij Hj Hn.
      destruct (Hentry j h' Hj) as (k' & v'' & Hj' & _ & Hn').
      destruct (normalized_entry_fun _ _ _ _ _ Hn Hn') as [<- _].
      assert (i = j); [|lia].
      apply (NoDup_lookup _ _ _ k Hnd); by rewrite list_lookup_fmap, ?Hi, ?Hj'.
Qed.

(** X6: a header map whose keys are not empty and hold no colon, and whose
    keys and values hold no control byte and have no white space around
    them, is read back from its headers written as "key: value", in whatever
    order they are written. *)
Theorem convertToMapAndSanitize_render (m : gmap string string) (l : list (string * string)) :
  (∀ k v, m !! k = Some v → k ≠ EmptyString ∧ (":"%char ∉ bytes k) ∧ clean k ∧ clean v) →
  l ≡ₚ map_to_list m →
  convertToMapAndSanitize (render_entry <$> l) = Done m.
Proof. apply render_entries_normalize. Qed.

Lemma convertToMapAndSanitize_render_witness :
  convertToMapAndSanitize
    (render_entry <$> map_to_list
       ({[ "X-Foo" := "a b"; "Authorization" := "Bearer x:y" ]} : gmap string string))
  = Done {[ "X-Foo" := "a b"; "Authorization" := "Bearer x:y" ]}.
Proof.
  apply convertToMapAndSanitize_render; [|reflexivity].
  intros k v Hk.
  apply lookup_insert_Some in Hk as [[<- <-]|[_ Hk]];
    [|apply lookup_singleton_Some in Hk as [<- <-]];
    (split_and!; [done | apply (bool_decide_unpack _); vm_compute; exact I | |]);
    (split_and!; [|reflexivity ..]); intros c Hc;
    repeat (apply elem_of_cons in Hc as [->|Hc]; [reflexivity|]);
    by apply elem_of_nil in Hc.
Defined.

(** X7: normalizing is idempotent through writing: the headers of a map the
    normalizer returned, written as "key: value", normalize to that map. *)
Theorem convertToMapAndSanitize_idempotent (hs : list string) (m : gmap string string) :
  convertToMapAndSanitize hs = Done m →
  convertToMapAndSanitize (render_entry <$> map_to_list m) = Done m.
Proof.
  intros Hm. apply render_entries_normalize; [|done].
  intros k v Hk.
  destruct (for_range_sanitize_outcome hs ∅) as [[Hall _]|[_ Hp]].
  2: { unfold convertToMapAndSanitize in Hm. congruence. }
  destruct (for_range_sanitize_entry hs Hall) as (m' & Hm' & Hlook).
  unfold convertToMapAndSanitize in Hm. rewrite Hm in Hm'. injection Hm' as <-.
  apply Hlook in Hk as (Hne & _ & h & _ & Hn & _).
  destruct (normalized_entry_clean h k v Hn) as [Hck Hcv].
  split_and!; try done.
  destruct Hn as (b & a & [_ Hnc] & -> & _). intros Hc. by apply Hnc, TrimSpace_bytes.
Qed.

Lemma convertToMapAndSanitize_idempotent_witness :
  convertToMapAndSanitize
    (render_entry <$> map_to_list ({[ "X-Foo" := "2" ]} : gmap string string))
  = Done {[ "X-Foo" := "2" ]}.
Proof.
  apply (convertToMapAndSanitize_idempotent ["  X-Foo :1"; "X-Foo: 2 "]). reflexivity.
Defined.

(** ** Delivery, whatever the client and the world *)

(** [Post], run on any client. *)
Lemma Post_any (env : Env) (σ : Store) (c : EndpointClient) (evtCtx : eventContext) :
  Post env σ c evtCtx =
  match bundle_of σ c with
  | None => ([], Panic NilDereference)
  | Some b =>
      match Log b with
      | None => ([], Panic NilDereference)
      | Some logger =>
          let line := EvDebug logger [("prefix", "proxy.EndpointClient.Post")]
                              "Forwarding event to local endpoint" in
          match outgoing env c evtCtx with
          | inr err => ([line], Done (Some err))
          | inl req =>
              match HTTPClient b with
              | None => ([line], Panic NilDereference)
              | Some client =>
                  match client_Do env client req with
                  | inr err =>
                      match OutCh b with
                      | Some ch => ([line; EvDo client req;
                                     EvSend ch (ErrorElement (FailedToPostError err))],
                                    Done (Some err))
                      | None => ([line; EvDo client req], Blocked)
                      end
                  | inl resp =>
                      match ResponseHandler b with
                      | Some handler =>
                          (line :: EvDo client req :: EvProcessResponse evtCtx (URL c) resp
                             :: (EvEffect <$> ProcessResponse handler evtCtx (URL c) resp)
                             ++ [EvClose resp], Done None)
                      | None => ([line; EvDo client req; EvClose resp], Panic NilDereference)
                      end
                  end
              end
          end
      end
  end.
Proof.
  destruct (bundle_of σ c) as [b|] eqn:Hb.
  2: { unfold Post, deref. unfold bundle_of in Hb. by rewrite Hb. }
  destruct (Log b) as [logger|] eqn:Hl.
  2: { unfold Post, deref. unfold bundle_of in Hb. rewrite Hb. simpl. by rewrite Hl. }
  destruct (HTTPClient b) as [client|] eqn:Hc.
  { rewrite (Post_run env σ c evtCtx b logger client Hb Hl Hc). cbv zeta.
    by destruct (outgoing env c evtCtx). }
  unfold Post, outgoing, deref. unfold bundle_of in Hb. rewrite Hb. simpl. rewrite Hl. simpl.
  destruct (http.NewRequest _ _ _ _); [by rewrite Hc | done].
Qed.

Lemma observe_effects_more (env : Env) (l : list Effect) :
  answered env (EvEffect <$> l) = [] ∧ sent_errors (EvEffect <$> l) = [].
Proof. split; (induction l as [|x l IH]; [done | exact IH]). Qed.

(** X8: a call of [Post] or [PostV2] hands at most one request to a
    transport, sends at most one element on a channel, calls the handler at
    most once and closes at most one body, whatever the client, the heap and
    the world: nothing is tried a second time. *)
Theorem Post_at_most_once (env : Env) (σ : Store) (c : EndpointClient) (evtCtx : eventContext) :
  ∀ t, t = (Post env σ c evtCtx).1 ∨ t = (PostV2 env σ c evtCtx).1 →
    (length (requests_of t) ≤ 1)%nat ∧ (length (sends_of t) ≤ 1)%nat
    ∧ (length (handler_calls t) ≤ 1)%nat ∧ (length (closed_bodies t) ≤ 1)%nat.
Proof.
  intros t [->| ->].
  - rewrite Post_any.
    destruct (bundle_of σ c) as [b|]; [|simpl; lia].
    destruct (Log b); [|simpl; lia]. cbv zeta.
    destruct (outgoing env c evtCtx) as [req|]; [|simpl; lia].
    destruct (HTTPClient b) as [client|]; [|simpl; lia].
    destruct (client_Do env client req) as [resp|].
    + destruct (ResponseHandler b) as [handler|]; [|simpl; lia].
      destruct (observe_effects (ProcessResponse handler evtCtx (URL c) resp))
        as (Hr & Hs & Hcalls & Hcl & _).
      unfold requests_of, sends_of, handler_calls, closed_bodies in *. simpl.
      rewrite !omap_app, Hr, Hs, Hcalls, Hcl. simpl. lia.
    + destruct (OutCh b); simpl; lia.
  - rewrite PostV2_run.
    destruct (outgoing env c evtCtx) as [req|]; [|simpl; lia].
    destruct (client_Do env http.DefaultClient req) as [resp|].
    + destruct (bundle_of σ c ≫= ResponseHandler) as [handler|]; [|simpl; lia].
      destruct (observe_effects (ProcessResponse handler evtCtx (URL c) resp))
        as (Hr & Hs & Hcalls & Hcl & _).
      unfold requests_of, sends_of, handler_calls, closed_bodies in *. simpl.
      rewrite !omap_app, Hr, Hs, Hcalls, Hcl. simpl. lia.
    + destruct (bundle_of σ c) as [b|]; [destruct (OutCh b)|]; simpl; lia.
Qed.

Lemma Post_at_most_once_witness :
  (length (requests_of (Post env_ok example_store (example_client ∅) example_event).1) ≤ 1)%nat.
Proof.
  apply (Post_at_most_once env_ok example_store (example_client ∅) example_event
           (Post env_ok example_store (example_client ∅) example_event).1).
  left. reflexivity.
Defined.

(** X9: the body of every response a transport gives is closed, once, and
    nothing else is closed: also when the call then panics for want of a
    handler or of a bundle. *)
Theorem Post_closes_what_it_gets (env : Env) (σ : Store) (c : EndpointClient)
    (evtCtx : eventContext) :
  closed_bodies (Post env σ c evtCtx).1 = answered env (Post env σ c evtCtx).1
  ∧ closed_bodies (PostV2 env σ c evtCtx).1 = answered env (PostV2 env σ c evtCtx).1.
Proof.
  split.
  - rewrite Post_any.
    destruct (bundle_of σ c) as [b|]; [|done].
    destruct (Log b); [|done]. cbv zeta.
    destruct (outgoing env c evtCtx) as [req|]; [|done].
    destruct (HTTPClient b) as [client|]; [|done].
    destruct (client_Do env client req) as [resp|] eqn:Hdo.
    + destruct (ResponseHandler b) as [handler|].
      * destruct (observe_effects (ProcessResponse handler evtCtx (URL c) resp))
          as (_ & _ & _ & Hcl & _).
        destruct (observe_effects_more env (ProcessResponse handler evtCtx (URL c) resp))
          as (Ha & _).
        unfold closed_bodies, answered in *. simpl.
        rewrite !omap_app, Hcl, Ha, Hdo. done.
      * unfold closed_bodies, answered. simpl. by rewrite Hdo.
    + destruct (OutCh b); unfold closed_bodies, answered; simpl; by rewrite Hdo.
  - rewrite PostV2_run.
    destruct (outgoing env c evtCtx) as [req|]; [|done].
    destruct (client_Do env http.DefaultClient req) as [resp|] eqn:Hdo.
    + destruct (bundle_of σ c ≫= ResponseHandler) as [handler|].
      * destruct (observe_effects (ProcessResponse handler evtCtx (URL c) resp))
          as (_ & _ & _ & Hcl & _).
        destruct (observe_effects_more env (ProcessResponse handler evtCtx (URL c) resp))
          as (Ha & _).
        unfold closed_bodies, answered in *. simpl.
        rewrite !omap_app, Hcl, Ha, Hdo. done.
      * unfold closed_bodies, answered. simpl. by rewrite Hdo.
    + destruct (bundle_of σ c) as [b|]; [destruct (OutCh b)|];
        unfold closed_bodies, answered; simpl; by rewrite Hdo.
Qed.

(** X10: [PostV2] reads the bundle of the client for its response handler
    and its output channel only: heaps that agree on these two give the same
    call; it never asks for a debug line and uses no transport but the
    default one. *)
Theorem PostV2_reads_handler_and_channel (env : Env) (σ σ' : Store) (c : EndpointClient)
    (evtCtx : eventContext) :
  bundle_of σ c ≫= ResponseHandler = bundle_of σ' c ≫= ResponseHandler →
  OutCh <$> bundle_of σ c = OutCh <$> bundle_of σ' c →
  PostV2 env σ c evtCtx = PostV2 env σ' c evtCtx
  ∧ debug_lines (PostV2 env σ c evtCtx).1 = []
  ∧ ∀ client, client ∈ transports_of (PostV2 env σ c evtCtx).1 → client = http.DefaultClient.
Proof.
  intros Hh Hch. rewrite !PostV2_run.
  destruct (outgoing env c evtCtx) as [req|]; [|split_and!; [done | done |]].
  2: { by intros ? ?%elem_of_nil. }
  destruct (client_Do env http.DefaultClient req) as [resp|].
  - rewrite <- Hh. destruct (bundle_of σ c ≫= ResponseHandler) as [handler|].
    + destruct (observe_effects (ProcessResponse handler evtCtx (URL c) resp))
        as (_ & _ & _ & _ & Hd & Ht & _).
      unfold debug_lines, transports_of in *. simpl. rewrite !omap_app, Hd, Ht. simpl.
      split_and!; [done | done |]. by intros ? ->%list_elem_of_singleton.
    + split_and!; [done | done |]. by intros ? ->%list_elem_of_singleton.
  - destruct (bundle_of σ c) as [b|], (bundle_of σ' c) as [b'|]; simpl in Hch; try done.
    + injection Hch as <-. destruct (OutCh b);
        (split_and!; [done | done |]); by intros ? ->%list_elem_of_singleton.
    + split_and!; [done | done |]. by intros ? ->%list_elem_of_singleton.
Qed.

Lemma PostV2_reads_handler_and_channel_witness :
  PostV2 env_ok example_store (example_client ∅) example_event =
  PostV2 env_ok {[ 7 := mkConfig None None (ResponseHandler example_bundle) (Some 1) ]}
         (example_client ∅) example_event.
Proof.
  apply (PostV2_reads_handler_and_channel env_ok example_store
           {[ 7 := mkConfig None None (ResponseHandler example_bundle) (Some 1) ]}
           (example_client ∅) example_event); reflexivity.
Defined.

(** ** What the request carries *)

(** X11: when no header of the client is named "host", whatever the case,
    the Host field of the request [Post] or [PostV2] sends is the host of the
    target URL, without the colon of an empty port: the headers of the event,
    one named [Host] included, do not change it. *)
Theorem host_defaults_to_URL (env : Env) (σ : Store) (c : EndpointClient)
    (evtCtx : eventContext) (req : http.Request) :
  req ∈ requests_of (Post env σ c evtCtx).1 ∨ req ∈ requests_of (PostV2 env σ c evtCtx).1 →
  (∀ k, is_Some (headers c !! k) → host_like k = false) →
  ∃ u, url_Parse env (URL c) = inl u
       ∧ http.Host req = http.removeEmptyPort (url.Host u)
       ∧ url.Host (http.URL req) = http.removeEmptyPort (url.Host u).
Proof.
  intros Hreq Hno.
  assert (outgoing env c evtCtx = inl req) as Ho.
  { destruct Hreq; [by apply Post_requests with σ | by apply PostV2_requests with σ]. }
  destruct (outgoing_spec env c evtCtx req Ho) as (u & Hu & _ & HU & _ & HH & _).
  exists u. split; [done|]. rewrite HH, HU. split; [|done].
  assert (filter (λ kv, host_like kv.1 = true) (range_order env 1 (headers c)) = []) as ->;
    [|done].
  apply elem_of_nil_inv. intros [k v] [Hk Hin]%list_elem_of_filter.
  apply range_order_elem in Hin. simpl in Hk. rewrite Hno in Hk; [done | by eexists].
Qed.

Lemma host_defaults_to_URL_witness :
  ∃ u, example_parse example_URL = inl u
       ∧ http.Host example_plain_request = http.removeEmptyPort (url.Host u)
       ∧ url.Host (http.URL example_plain_request) = http.removeEmptyPort (url.Host u).
Proof.
  apply (host_defaults_to_URL env_ok example_store (example_client ∅) example_event
           example_plain_request).
  - left. vm_compute. left.
  - intros k [v Hv]. change ((∅ : gmap string string) !! k = Some v) in Hv.
    by rewrite lookup_empty in Hv.
Defined.

Lemma values_for_elem_iff (k v : string) (hs : list (string * string)) :
  v ∈ values_for k hs ↔
  ∃ k', (k', v) ∈ hs
        ∧ textproto.CanonicalMIMEHeaderKey k' = textproto.CanonicalMIMEHeaderKey k.
Proof.
  unfold values_for. rewrite list_elem_of_fmap. split.
  - intros ([k' v'] & -> & [Hc Hin]%list_elem_of_filter). by exists k'.
  - intros (k' & Hin & Hc). exists (k', v). split; [done|]. by apply list_elem_of_filter.
Qed.

(** X12: the header set of the request [Post] or [PostV2] sends holds, under
    the canonical form of each key, the value of every header of the event
    (one named [Host] included) and of every header of the client that is not
    named "host", and holds nothing else. *)
Theorem request_headers_provenance (env : Env) (σ : Store) (c : EndpointClient)
    (evtCtx : eventContext) (req : http.Request) :
  req ∈ requests_of (Post env σ c evtCtx).1 ∨ req ∈ requests_of (PostV2 env σ c evtCtx).1 →
  (∀ k v, requestHeaders evtCtx !! k = Some v → v ∈ textproto.Values (http.Header req) k)
  ∧ (∀ k v, headers c !! k = Some v → host_like k = false →
            v ∈ textproto.Values (http.Header req) k)
  ∧ (∀ k v, v ∈ textproto.Values (http.Header req) k →
       (∃ k', requestHeaders evtCtx !! k' = Some v
              ∧ textproto.CanonicalMIMEHeaderKey k' = textproto.CanonicalMIMEHeaderKey k)
       ∨ (∃ k', headers c !! k' = Some v ∧ host_like k' = false
                ∧ textproto.CanonicalMIMEHeaderKey k' = textproto.CanonicalMIMEHeaderKey k)).
Proof.
  intros Hreq.
  assert (outgoing env c evtCtx = inl req) as Ho.
  { destruct Hreq; [by apply Post_requests with σ | by apply PostV2_requests with σ]. }
  destruct (outgoing_spec env c evtCtx req Ho) as (_ & _ & _ & _ & _ & _ & HV).
  split_and!.
  - intros k v Hk. rewrite HV, elem_of_app. left.
    apply values_for_elem_iff. exists k. split; [by apply range_order_elem | done].
  - intros k v Hk Hh. rewrite HV, elem_of_app. right.
    apply values_for_elem_iff. exists k. split; [|done].
    apply list_elem_of_filter. split; [done | by apply range_order_elem].
  - intros k v. rewrite HV, elem_of_app, !values_for_elem_iff.
    intros [(k' & Hin & Hc)|(k' & [Hh Hin]%list_elem_of_filter & Hc)].
    + left. exists k'. split; [by apply range_order_elem in Hin | done].
    + right. exists k'. split_and!; [by apply range_order_elem in Hin | done | done].
Qed.

Lemma request_headers_provenance_witness :
  "1" ∈ textproto.Values (http.Header example_host_request) "X-Foo".
Proof.
  destruct (request_headers_provenance env_ok example_store example_host_client example_event
              example_host_request) as (He & _ & _).
  - left. vm_compute. left.
  - apply He. reflexivity.
Defined.

(** ** The order in which maps are visited *)

Lemma range_order_any (env1 env2 : Env) (n1 n2 : nat) (m : gmap string string) :
  range_order env1 n1 m ≡ₚ range_order env2 n2 m.
Proof. by rewrite !range_order_perm. Qed.

Lemma same_up_to_order_refl (r : http.Request) : same_up_to_order r r.
Proof.
  unfold same_up_to_order. by split_and!.
Qed.

Lemma same_up_to_order_trans (r1 r2 r3 : http.Request) :
  same_up_to_order r1 r2 → same_up_to_order r2 r3 → same_up_to_order r1 r3.
Proof.
  intros (? & ? & ? & ? & H12) (? & ? & ? & ? & H23).
  unfold same_up_to_order. split_and!; try congruence.
  intros k. specialize (H12 k). specialize (H23 k).
  destruct H12 as [l1 l2 Hp|]; inversion H23; subst; constructor. by etrans.
Qed.

(** [Header.Add] on header sets that hold the same values gives header sets
    that hold the same values. *)
Lemma Header_Add_up_to_order (r1 r2 : http.Request) (k v : string) :
  same_up_to_order r1 r2 → same_up_to_order (http.Header_Add r1 k v) (http.Header_Add r2 k v).
Proof.
  intros (? & ? & ? & ? & HV). unfold same_up_to_order. simpl. split_and!; try done.
  intros k'. unfold textproto.Add. cbv zeta.
  destruct (decide (textproto.CanonicalMIMEHeaderKey k = k')) as [<-|Hne].
  - rewrite !lookup_insert_eq. constructor. apply Permutation_app; [|done].
    destruct (HV (textproto.CanonicalMIMEHeaderKey k)); simpl; done.
  - rewrite !lookup_insert_ne by done. apply HV.
Qed.

(** Two calls of [Header.Add], in either order. *)
Lemma Header_Add_swap (r : http.Request) (k1 v1 k2 v2 : string) :
  same_up_to_order (http.Header_Add (http.Header_Add r k1 v1) k2 v2)
                   (http.Header_Add (http.Header_Add r k2 v2) k1 v1).
Proof.
  unfold same_up_to_order. simpl. split_and!; try done.
  intros k. unfold textproto.Add. cbv zeta.
  set (c1 := textproto.CanonicalMIMEHeaderKey k1).
  set (c2 := textproto.CanonicalMIMEHeaderKey k2).
  destruct (decide (c1 = c2)) as [E|Hne].
  - rewrite <- E. rewrite !lookup_insert_eq. simpl.
    destruct (decide (c1 = k)) as [<-|Hk].
    + rewrite !lookup_insert_eq. constructor.
      rewrite <- !app_assoc. apply Permutation_app; [done|]. apply perm_swap.
    + rewrite !lookup_insert_ne by done.
      destruct (http.Header r !! k); by constructor.
  - rewrite (lookup_insert_ne _ c1 c2) by done.
    rewrite (lookup_insert_ne _ c2 c1) by done.
    rewrite (insert_insert_ne _ c2 c1) by done.
    match goal with |- option_Forall2 _ ?x _ => destruct x end; by constructor.
Qed.

Lemma set_Host_up_to_order (r1 r2 : http.Request) (v1 v2 : string) :
  same_up_to_order r1 r2 → same_up_to_order (http.set_Host r1 v1) (http.set_Host r2 v2).
Proof. intros H. exact H. Qed.

(** A loop over a sequence of headers, run over two orders of the sequence:
    when its body keeps requests the same up to order, and two runs of the
    body can be exchanged, the results are the same up to order. *)
Section loop_order.

Variable body : http.Request → string * string → http.Request.

Hypothesis body_same : ∀ r1 r2 kv,
  same_up_to_order r1 r2 → same_up_to_order (body r1 kv) (body r2 kv).

Hypothesis body_swap : ∀ r kv1 kv2,
  same_up_to_order (body (body r kv1) kv2) (body (body r kv2) kv1).

Lemma foldl_same_order (hs : list (string * string)) (r1 r2 : http.Request) :
  same_up_to_order r1 r2 → same_up_to_order (foldl body r1 hs) (foldl body r2 hs).
Proof.
  revert r1 r2. induction hs as [|kv hs IH]; intros r1 r2 H; [done|].
  simpl. by apply IH, body_same.
Qed.

Lemma foldl_up_to_order (hs1 hs2 : list (string * string)) (r1 r2 : http.Request) :
  hs1 ≡ₚ hs2 → same_up_to_order r1 r2 →
  same_up_to_order (foldl body r1 hs1) (foldl body r2 hs2).
Proof.
  intros Hp. revert r1 r2.
  induction Hp as [|kv hs1 hs2 Hp IH|kv1 kv2 hs|hs1 hs2 hs3 Hp1 IH1 Hp2 IH2]; intros r1 r2 H.
  - done.
  - simpl. by apply IH, body_same.
  - simpl. apply foldl_same_order.
    apply same_up_to_order_trans with (body (body r1 kv1) kv2); [apply body_swap|].
    by apply body_same, body_same.
  - apply same_up_to_order_trans with (foldl body r1 hs2).
    + apply IH1, same_up_to_order_refl.
    + by apply IH2.
Qed.

End loop_order.

(** In two worlds that parse the target alike the requests built differ by
    the Host field and by the order of the values under a key at most. *)
Lemma outgoing_up_to_order (env1 env2 : Env) (c : EndpointClient) (evtCtx : eventContext)
    (r1 r2 : http.Request) :
  url_Parse env1 (URL c) = url_Parse env2 (URL c) →
  outgoing env1 c evtCtx = inl r1 → outgoing env2 c evtCtx = inl r2 →
  same_up_to_order r1 r2.
Proof.
  unfold outgoing, http.NewRequest. intros <-.
  match goal with |- context [if ?t then _ else _] => destruct t end; [done|].
  destruct (url_Parse env1 (URL c)) as [u|]; [|done].
  intros [= <-] [= <-]. unfold add_custom_headers, add_event_headers.
  apply foldl_up_to_order.
  - intros r1 r2 kv H. destruct (String.eqb _ _);
      [by apply set_Host_up_to_order | by apply Header_Add_up_to_order].
  - intros r kv1 kv2.
    destruct (String.eqb (strings.ToLower kv1.1) "host"),
             (String.eqb (strings.ToLower kv2.1) "host").
    + apply set_Host_up_to_order, set_Host_up_to_order, same_up_to_order_refl.
    + apply same_up_to_order_refl.
    + apply same_up_to_order_refl.
    + apply Header_Add_swap.
  - apply range_order_any.
  - apply foldl_up_to_order.
    + intros r1 r2 kv H. by apply Header_Add_up_to_order.
    + intros r kv1 kv2. apply Header_Add_swap.
    + apply range_order_any.
    + apply same_up_to_order_refl.
Qed.

(** The Host fields of the requests built in two such worlds are the same,
    unless the client has two headers named "host" but for the case, each of
    which gives one of the two. *)
Lemma outgoing_Host_up_to_order (env1 env2 : Env) (c : EndpointClient)
    (evtCtx : eventContext) (r1 r2 : http.Request) :
  url_Parse env1 (URL c) = url_Parse env2 (URL c) →
  outgoing env1 c evtCtx = inl r1 → outgoing env2 c evtCtx = inl r2 →
  http.Host r1 = http.Host r2
  ∨ ∃ k1 k2, k1 ≠ k2 ∧ host_like k1 = true ∧ host_like k2 = true
             ∧ headers c !! k1 = Some (http.Host r1)
             ∧ headers c !! k2 = Some (http.Host r2).
Proof.
  intros Hp Ho1 Ho2.
  destruct (outgoing_spec env1 c evtCtx r1 Ho1) as (u & Hu & _ & _ & _ & HH1 & _).
  destruct (outgoing_spec env2 c evtCtx r2 Ho2) as (u' & Hu' & _ & _ & _ & HH2 & _).
  assert (u' = u) as -> by congruence.
  set (hosts1 := filter (λ kv, host_like kv.1 = true) (range_order env1 1 (headers c))) in *.
  set (hosts2 := filter (λ kv, host_like kv.1 = true) (range_order env2 1 (headers c))) in *.
  assert (hosts1 ≡ₚ hosts2) as Hperm.
  { subst hosts1 hosts2. by rewrite (range_order_any env1 env2 1 1). }
  assert (∀ env k v,
            last (filter (λ kv, host_like kv.1 = true) (range_order env 1 (headers c)))
              = Some (k, v) →
            host_like k = true ∧ headers c !! k = Some v) as Hlast.
  { intros env k v [l E]%last_Some.
    assert ((k, v) ∈ filter (λ kv, host_like kv.1 = true) (range_order env 1 (headers c)))
      as [Hh Hin%range_order_elem]%list_elem_of_filter; [|done].
    rewrite E. apply elem_of_app. right. by apply list_elem_of_singleton. }
  rewrite fmap_last in HH1, HH2.
  destruct (last hosts1) as [[k1 v1]|] eqn:E1.
  - destruct (last hosts2) as [[k2 v2]|] eqn:E2.
    + simpl in HH1, HH2. subst v1 v2.
      destruct (Hlast env1 _ _ E1) as [Hh1 Hk1].
      destruct (Hlast env2 _ _ E2) as [Hh2 Hk2].
      destruct (decide (k1 = k2)) as [->|Hne]; [left; congruence|].
      right. by exists k1, k2.
    + apply last_None in E2. rewrite E2 in Hperm.
      apply Permutation_nil_r in Hperm. rewrite Hperm in E1. done.
  - apply last_None in E1. rewrite E1 in Hperm.
    apply Permutation_nil_l in Hperm. rewrite <- Hperm in HH2. simpl in HH1, HH2.
    left. congruence.
Qed.

(** The request of a trace of [Post] or [PostV2] is the request built. *)
Lemma sent_request_outgoing (env : Env) (σ : Store) (c : EndpointClient)
    (evtCtx : eventContext) (req : http.Request) :
  req ∈ requests_of (Post env σ c evtCtx).1 ∨ req ∈ requests_of (PostV2 env σ c evtCtx).1 →
  outgoing env c evtCtx = inl req.
Proof. intros [?|?]; [by apply Post_requests with σ | by apply PostV2_requests with σ]. Qed.

(** X13: the order in which [range] visits the two maps can change two
    things of the request [Post] or [PostV2] sends, and no other: the order
    of the values the header set holds under a key, and, when the client has
    two headers named "host" but for the case of the letters, which of the
    two gives the Host field.  In two worlds that parse the target alike, and
    whatever the heaps, the requests sent have the same method, URL, body and
    content length; their header sets have the same keys, and under every key
    the same values up to their order; their Host fields are the same, or
    they are the values of two different headers of the client, both named
    "host" but for the case. *)
Theorem sent_request_up_to_order (env1 env2 : Env) (σ1 σ2 : Store) (c : EndpointClient)
    (evtCtx : eventContext) (r1 r2 : http.Request) :
  url_Parse env1 (URL c) = url_Parse env2 (URL c) →
  r1 ∈ requests_of (Post env1 σ1 c evtCtx).1 ∨ r1 ∈ requests_of (PostV2 env1 σ1 c evtCtx).1 →
  r2 ∈ requests_of (Post env2 σ2 c evtCtx).1 ∨ r2 ∈ requests_of (PostV2 env2 σ2 c evtCtx).1 →
  http.Method r1 = http.Method r2 ∧ http.URL r1 = http.URL r2
  ∧ http.Body r1 = http.Body r2 ∧ http.ContentLength r1 = http.ContentLength r2
  ∧ (∀ k, option_Forall2 (≡ₚ) (http.Header r1 !! k) (http.Header r2 !! k))
  ∧ (∀ k, textproto.Values (http.Header r1) k ≡ₚ textproto.Values (http.Header r2) k)
  ∧ (http.Host r1 = http.Host r2
     ∨ ∃ k1 k2, k1 ≠ k2 ∧ host_like k1 = true ∧ host_like k2 = true
                ∧ headers c !! k1 = Some (http.Host r1)
                ∧ headers c !! k2 = Some (http.Host r2)).
Proof.
  intros Hp H1%sent_request_outgoing H2%sent_request_outgoing.
  destruct (outgoing_up_to_order env1 env2 c evtCtx r1 r2 Hp H1 H2)
    as (Hm & HU & HB & HL & HV).
  split_and!; try done.
  - intros k. unfold textproto.Values.
    destruct (HV (textproto.CanonicalMIMEHeaderKey k)); simpl; done.
  - by apply (outgoing_Host_up_to_order env1 env2 c evtCtx).
Qed.

(** The client with the headers [Host: a.example] and [host: b.example], in
    the two orders: the requests differ in the Host field, the one taken from
    the first header and the other from the second, and in nothing else. *)
Lemma sent_request_up_to_order_witness :
  http.Body (http.set_Host example_plain_request "a.example")
    = http.Body (http.set_Host example_plain_request "b.example")
  ∧ textproto.Values (http.Header (http.set_Host example_plain_request "a.example")) "X-Foo"
    ≡ₚ textproto.Values (http.Header (http.set_Host example_plain_request "b.example")) "X-Foo"
  ∧ ∃ k1 k2, k1 ≠ k2 ∧ host_like k1 = true ∧ host_like k2 = true
             ∧ headers example_two_hosts_client !! k1 = Some "a.example"
             ∧ headers example_two_hosts_client !! k2 = Some "b.example".
Proof.
  destruct (sent_request_up_to_order env_ok env_ok_reversed example_store example_store
              example_two_hosts_client example_event
              (http.set_Host example_plain_request "a.example")
              (http.set_Host example_plain_request "b.example") eq_refl)
    as (_ & _ & HB & _ & _ & HV & HH).
  - left. vm_compute. left.
  - right. vm_compute. left.
  - split; [exact HB|]. split; [exact (HV "X-Foo")|].
    destruct HH as [HH|HH]; [discriminate HH | exact HH].
Defined.

(** A list with at most one element has one order. *)
Lemma Permutation_short {A} (l1 l2 : list A) :
  l1 ≡ₚ l2 → (length l1 ≤ 1)%nat → l1 = l2.
Proof.
  destruct l1 as [|x [|y l1]]; simpl; intros H Hl; [| |lia].
  - by apply Permutation_nil_l in H.
  - by apply Permutation_singleton_l in H.
Qed.

(** Of headers with distinct keys at most one passes a test that no two
    keys pass. *)
Lemma filter_unique_key (Q : string * string → Prop) `{!∀ kv, Decision (Q kv)}
    (l : list (string * string)) :
  NoDup l.*1 →
  (∀ kv1 kv2, kv1 ∈ l → kv2 ∈ l → Q kv1 → Q kv2 → kv1.1 = kv2.1) →
  (length (filter Q l) ≤ 1)%nat.
Proof.
  induction l as [|kv0 l IH]; intros Hnd Hinj; [simpl; lia|].
  rewrite fmap_cons in Hnd. apply NoDup_cons in Hnd as [Hk0 Hnd].
  assert (length (filter Q l) ≤ 1)%nat as IH'.
  { apply IH; [done|]. intros kv1 kv2 H1 H2. apply Hinj; by right. }
  rewrite filter_cons. case_decide as Hc; [|done].
  destruct (filter Q l) as [|kv1 l'] eqn:E; [simpl; lia|].
  exfalso. assert (kv1 ∈ filter Q l) as Hin by (rewrite E; left).
  apply list_elem_of_filter in Hin as [Hq Hin].
  apply Hk0. rewrite (Hinj kv0 kv1); [|left|by right|done|done].
  apply list_elem_of_fmap. by exists kv1.
Qed.

(** ** Keys that differ in case *)

Lemma canonical_from_cons (upper : bool) (c : ascii) (r : string) :
  textproto.canonical_from upper (String c r) =
  String (canonical_byte upper c)
         (textproto.canonical_from (code (canonical_byte upper c) =? 45)%N r).
Proof. reflexivity. Qed.

Lemma canonical_byte_lower (upper : bool) (c : ascii) :
  canonical_byte upper (strings.lower_byte c) = canonical_byte upper c.
Proof. destruct upper; destruct c as [[] [] [] [] [] [] [] []]; reflexivity. Qed.

Lemma valid_lower_byte (c : ascii) :
  textproto.validHeaderFieldByte (strings.lower_byte c) = textproto.validHeaderFieldByte c.
Proof. destruct c as [[] [] [] [] [] [] [] []]; reflexivity. Qed.

Lemma canonical_from_ToLower (upper : bool) (s : string) :
  textproto.canonical_from upper (strings.ToLower s) = textproto.canonical_from upper s.
Proof.
  revert upper. induction s as [|c s IH]; intros upper; [done|].
  cbn [strings.ToLower]. rewrite !canonical_from_cons, canonical_byte_lower. by rewrite IH.
Qed.

Lemma all_valid_ToLower (s : string) :
  textproto.all_valid (strings.ToLower s) = textproto.all_valid s.
Proof.
  induction s as [|c s IH]; [done|].
  cbn [strings.ToLower textproto.all_valid]. by rewrite valid_lower_byte, IH.
Qed.

(** Keys that are the same but for the case of their letters have one
    canonical form, when they are made of the bytes of a field name. *)
Lemma canonical_of_ToLower (k k' : string) :
  textproto.all_valid k = true → strings.ToLower k = strings.ToLower k' →
  textproto.CanonicalMIMEHeaderKey k = textproto.CanonicalMIMEHeaderKey k'.
Proof.
  intros Hv Hl. unfold textproto.CanonicalMIMEHeaderKey.
  assert (textproto.all_valid k' = true) as Hv'.
  { by rewrite <- all_valid_ToLower, <- Hl, all_valid_ToLower. }
  rewrite Hv, Hv'.
  by rewrite <- (canonical_from_ToLower true k), Hl, canonical_from_ToLower.
Qed.

Lemma host_like_canonical_Host (k : string) :
  host_like k = true → textproto.CanonicalMIMEHeaderKey k = "Host".
Proof.
  intros H%String.eqb_eq. symmetry.
  apply (canonical_of_ToLower "host" k); [done | by rewrite H].
Qed.

(** Without keys that share a canonical form the request built does not
    depend on the order in which the maps are visited. *)
Lemma outgoing_order_independent (env1 env2 : Env) (c : EndpointClient)
    (evtCtx : eventContext) (r1 r2 : http.Request) :
  canonical_distinct (requestHeaders evtCtx) → canonical_distinct (headers c) →
  url_Parse env1 (URL c) = url_Parse env2 (URL c) →
  outgoing env1 c evtCtx = inl r1 → outgoing env2 c evtCtx = inl r2 →
  http.Method r1 = http.Method r2 ∧ http.URL r1 = http.URL r2
  ∧ http.Body r1 = http.Body r2 ∧ http.Host r1 = http.Host r2
  ∧ ∀ k, textproto.Values (http.Header r1) k = textproto.Values (http.Header r2) k.
Proof.
  intros De Dc Hp Ho1 Ho2.
  destruct (outgoing_spec env1 c evtCtx r1 Ho1) as (u & Hu & Hm1 & HU1 & HB1 & HH1 & HV1).
  destruct (outgoing_spec env2 c evtCtx r2 Ho2) as (u' & Hu' & Hm2 & HU2 & HB2 & HH2 & HV2).
  assert (u' = u) as -> by congruence.
  assert (∀ env n (m : gmap string string), NoDup (range_order env n m).*1) as Hnd.
  { intros env n m. rewrite range_order_perm. apply NoDup_fst_map_to_list. }
  assert (∀ env n (m : gmap string string) kv,
            kv ∈ range_order env n m → is_Some (m !! kv.1)) as Hdom.
  { intros env n m [k v] Hin%range_order_elem. by eexists. }
  assert (∀ (Q : string * string → Prop) `{!∀ kv, Decision (Q kv)} n (m : gmap string string),
            (∀ kv1 kv2, Q kv1 → Q kv2 → is_Some (m !! kv1.1) → is_Some (m !! kv2.1) →
                        kv1.1 = kv2.1) →
            filter Q (range_order env1 n m) = filter Q (range_order env2 n m)) as Hsame.
  { intros Q ? n m HQ. apply Permutation_short.
    - by rewrite (range_order_any env1 env2 n n).
    - apply filter_unique_key; [apply Hnd|].
      intros kv1 kv2 H1 H2 Q1 Q2. apply HQ; eauto. }
  split_and!; try congruence.
  - rewrite HH1, HH2. f_equal. f_equal. f_equal. apply Hsame.
    intros kv1 kv2 Q1 Q2 H1 H2. apply Dc; [done | done |].
    by rewrite !host_like_canonical_Host.
  - intros k. rewrite HV1, HV2. unfold values_for. rewrite !list_filter_filter.
    f_equal; [f_equal | f_equal]; apply Hsame.
    + intros kv1 kv2 Q1 Q2 H1 H2. apply De; [done | done | congruence].
    + intros kv1 kv2 [Q1 _] [Q2 _] H1 H2. apply Dc; [done | done | congruence].
Qed.

(** X14: when no two keys of the event's headers, and no two keys of the
    client's headers, have the same canonical form, the request [Post] or
    [PostV2] sends does not depend on the order in which [range] visits the
    maps: same method, URL, body and Host field, and under every key the same
    values in the same order. *)
Theorem sent_request_order_independent (env1 env2 : Env) (σ1 σ2 : Store)
    (c : EndpointClient) (evtCtx : eventContext) (r1 r2 : http.Request) :
  canonical_distinct (requestHeaders evtCtx) → canonical_distinct (headers c) →
  url_Parse env1 (URL c) = url_Parse env2 (URL c) →
  r1 ∈ requests_of (Post env1 σ1 c evtCtx).1 ∨ r1 ∈ requests_of (PostV2 env1 σ1 c evtCtx).1 →
  r2 ∈ requests_of (Post env2 σ2 c evtCtx).1 ∨ r2 ∈ requests_of (PostV2 env2 σ2 c evtCtx).1 →
  http.Method r1 = http.Method r2 ∧ http.URL r1 = http.URL r2
  ∧ http.Body r1 = http.Body r2 ∧ http.Host r1 = http.Host r2
  ∧ ∀ k, textproto.Values (http.Header r1) k = textproto.Values (http.Header r2) k.
Proof.
  intros De Dc Hp H1%sent_request_outgoing H2%sent_request_outgoing.
  by apply (outgoing_order_independent env1 env2 c evtCtx).
Qed.

Lemma sent_request_order_independent_witness :
  example_two_headers_request
    ∈ requests_of (Post env_ok example_store example_two_headers_client example_event).1
  ∧ example_two_headers_request
    ∈ requests_of (Post env_ok_reversed example_store example_two_headers_client
                        example_event).1
  ∧ http.Host example_two_headers_request = http.Host example_two_headers_request.
Proof.
  assert (example_two_headers_request
    ∈ requests_of (Post env_ok example_store example_two_headers_client example_event).1)
    as H1 by (vm_compute; left).
  assert (example_two_headers_request
    ∈ requests_of (Post env_ok_reversed example_store example_two_headers_client
                        example_event).1)
    as H2 by (vm_compute; left).
  split; [exact H1|]. split; [exact H2|].
  destruct (sent_request_order_independent env_ok env_ok_reversed example_store example_store
              example_two_headers_client example_event
              example_two_headers_request example_two_headers_request)
    as (_ & _ & _ & HH & _).
  - intros k1 k2 [v1 Hv1] [v2 Hv2] _.
    change (({[ "X-Foo" := "1" ]} : gmap string string) !! k1 = Some v1) in Hv1.
    change (({[ "X-Foo" := "1" ]} : gmap string string) !! k2 = Some v2) in Hv2.
    apply lookup_singleton_Some in Hv1 as [<- _].
    by apply lookup_singleton_Some in Hv2 as [<- _].
  - intros k1 k2 [v1 Hv1] [v2 Hv2].
    change (({[ "X-A" := "1"; "X-B" := "2" ]} : gmap string string) !! k1 = Some v1) in Hv1.
    change (({[ "X-A" := "1"; "X-B" := "2" ]} : gmap string string) !! k2 = Some v2) in Hv2.
    apply lookup_insert_Some in Hv1 as [[<- _]|[_ [<- _]%lookup_singleton_Some]];
      apply lookup_insert_Some in Hv2 as [[<- _]|[_ [<- _]%lookup_singleton_Some]];
      (reflexivity || (vm_compute; discriminate)).
  - reflexivity.
  - left. exact H1.
  - left. exact H2.
  - exact HH.
Defined.

(** X15: when the key of a header of the event and the key of a header of
    the client, not "host", are field names that differ only in the case of
    their letters, the request [Post] sends carries both values under one
    key, the event's before the client's. *)
Theorem Post_collision_any_case (env : Env) (σ : Store) (c : EndpointClient)
    (evtCtx : eventContext) (req : http.Request) (ke kc ve vc : string) :
  req ∈ requests_of (Post env σ c evtCtx).1 ∨ req ∈ requests_of (PostV2 env σ c evtCtx).1 →
  requestHeaders evtCtx !! ke = Some ve → headers c !! kc = Some vc →
  host_like kc = false →
  textproto.all_valid ke = true → strings.ToLower ke = strings.ToLower kc →
  textproto.Values (http.Header req) ke = textproto.Values (http.Header req) kc
  ∧ ∃ l1 l2 l3, textproto.Values (http.Header req) kc = l1 ++ ve :: l2 ++ vc :: l3.
Proof.
  intros Hreq He Hc Hh Hv Hl.
  assert (outgoing env c evtCtx = inl req) as Ho.
  { destruct Hreq; [by apply Post_requests with σ | by apply PostV2_requests with σ]. }
  destruct (outgoing_spec env c evtCtx req Ho) as (_ & _ & _ & _ & _ & _ & HV).
  pose proof (canonical_of_ToLower ke kc Hv Hl) as Hcan.
  split; [unfold textproto.Values; by rewrite Hcan|].
  assert (ve ∈ values_for kc (range_order env 0 (requestHeaders evtCtx))) as H1.
  { apply values_for_elem_iff. exists ke. split; [by apply range_order_elem | done]. }
  assert (vc ∈ values_for kc (filter (λ kv, host_like kv.1 = false)
                                     (range_order env 1 (headers c)))) as H2.
  { apply values_for_elem, list_elem_of_filter. split; [done|]. by apply range_order_elem. }
  apply list_elem_of_split in H1 as (l1 & l2 & H1).
  apply list_elem_of_split in H2 as (l2' & l3 & H2).
  exists l1, (l2 ++ l2'), l3. rewrite HV, H1, H2. by rewrite <- !app_assoc.
Qed.

Lemma Post_collision_any_case_witness :
  textproto.Values (http.Header example_merged_request) "X-Foo"
    = textproto.Values (http.Header example_merged_request) "x-foo"
  ∧ ∃ l1 l2 l3,
      textproto.Values (http.Header example_merged_request) "x-foo" = l1 ++ "1" :: l2 ++ "2" :: l3.
Proof.
  apply (Post_collision_any_case env_ok example_store example_lower_client example_event
           example_merged_request "X-Foo" "x-foo" "1" "2").
  - left. vm_compute. left.
  - reflexivity.
  - reflexivity.
  - reflexivity.
  - reflexivity.
  - reflexivity.
Defined.

(** ** The record of a failure *)

(** X16: whenever [Post] or [PostV2] has sent an element on the channel, the
    call has returned an error, the element wraps that very error in a
    [FailedToPostError], and the message of the wrapper is the message of the
    error returned. *)
Theorem sent_error_is_returned (env : Env) (σ : Store) (c : EndpointClient)
    (evtCtx : eventContext) (v : M (option error)) (err : error) :
  v = Post env σ c evtCtx ∨ v = PostV2 env σ c evtCtx →
  err ∈ sent_errors v.1 →
  ∃ cause, v.2 = Done (Some cause) ∧ err = FailedToPostError cause
           ∧ Error err = Error cause ∧ sent_errors v.1 = [err].
Proof.
  intros [->| ->].
  - rewrite Post_any.
    destruct (bundle_of σ c) as [b|]; [|by intros ?%elem_of_nil].
    destruct (Log b); [|by intros ?%elem_of_nil]. cbv zeta.
    destruct (outgoing env c evtCtx) as [req|]; [|by intros ?%elem_of_nil].
    destruct (HTTPClient b) as [client|]; [|by intros ?%elem_of_nil].
    destruct (client_Do env client req) as [resp|cause].
    + destruct (ResponseHandler b) as [handler|]; [|by intros ?%elem_of_nil].
      destruct (observe_effects_more env (ProcessResponse handler evtCtx (URL c) resp))
        as (_ & Hs).
      unfold sent_errors in *. simpl. rewrite omap_app, Hs. by intros ?%elem_of_nil.
    + destruct (OutCh b); [|by intros ?%elem_of_nil].
      intros ->%list_elem_of_singleton. by exists cause.
  - rewrite PostV2_run.
    destruct (outgoing env c evtCtx) as [req|]; [|by intros ?%elem_of_nil].
    destruct (client_Do env http.DefaultClient req) as [resp|cause].
    + destruct (bundle_of σ c ≫= ResponseHandler) as [handler|]; [|by intros ?%elem_of_nil].
      destruct (observe_effects_more env (ProcessResponse handler evtCtx (URL c) resp))
        as (_ & Hs).
      unfold sent_errors in *. simpl. rewrite omap_app, Hs. by intros ?%elem_of_nil.
    + destruct (bundle_of σ c) as [b|]; [destruct (OutCh b)|]; try by intros ?%elem_of_nil.
      intros ->%list_elem_of_singleton. by exists cause.
Qed.

Lemma sent_error_is_returned_witness :
  ∃ cause, (Post env_refused example_store (example_client ∅) example_event).2
             = Done (Some cause)
           ∧ FailedToPostError refused = FailedToPostError cause
           ∧ Error (FailedToPostError refused) = Error cause
           ∧ sent_errors (Post env_refused example_store (example_client ∅) example_event).1
             = [FailedToPostError refused].
Proof.
  apply (sent_error_is_returned env_refused example_store (example_client ∅) example_event).
  - left. reflexivity.
  - vm_compute. left.
Defined.

(** ** More on the constructor *)

(** A pointer that leads nowhere makes the first read panic. *)
Lemma NewEndpointClient_dangling (url : string) (hs : list string) (connect : bool)
    (evs : list string) (isED : bool) (l : loc) (σ : Store) :
  σ !! l = None →
  NewEndpointClient url hs connect evs isED (Some l) σ = (σ, Panic NilDereference).
Proof.
  intros H. unfold NewEndpointClient, mbind, St_bind, mret, St_ret, load. simpl. by rewrite H.
Qed.

(** What is known of a client the constructor returned. *)
Lemma NewEndpointClient_Done (url : string) (hs : list string) (connect : bool)
    (evs : list string) (isED : bool) (p : option loc) (σ σ' : Store) (c : EndpointClient) :
  NewEndpointClient url hs connect evs isED p σ = (σ', Done c) →
  ∃ b0 l hm,
    supplied σ p b0 ∧ match p with Some l' => l' = l | None => σ !! l = None end
    ∧ convertToMapAndSanitize hs = Done hm
    ∧ c = mkEndpointClient url hm connect (convertToMap evs) (Some l) isED
    ∧ is_Some (σ' !! l) ∧ ∀ l', l' ≠ l → σ' !! l' = σ !! l'.
Proof.
  intros Hrun.
  assert (∃ b0, supplied σ p b0) as [b0 Hs].
  { destruct p as [l|]; [|by eexists].
    destruct (σ !! l) as [b0|] eqn:E; [by exists b0|].
    rewrite NewEndpointClient_dangling in Hrun by done. done. }
  destruct (NewEndpointClient_supplied url hs connect evs isED p σ b0 Hs) as (l & Hrun' & Hp).
  rewrite Hrun in Hrun'. destruct (convertToMapAndSanitize hs) as [hm| |]; try done.
  simpl in Hrun'. injection Hrun' as -> ->.
  exists b0, l, hm. split_and!; try done.
  - rewrite lookup_insert_eq. by eexists.
  - intros l' Hl'. by rewrite lookup_insert_ne.
Qed.

(** X17: when the constructor panics on a header without a colon, the bundle
    has already been filled in: the caller's bundle, or the new one, is left
    in the heap with its logger, transport and response handler set, although
    no client is returned. *)
Theorem NewEndpointClient_panic_after_defaults (url : string) (hs : list string)
    (connect : bool) (evs : list string) (isED : bool) (p : option loc) (σ : Store)
    (b0 : EndpointConfig) :
  supplied σ p b0 → Exists (λ h, ¬ has_colon h) hs →
  ∃ l b,
    NewEndpointClient url hs connect evs isED p σ = (<[l := b]> σ, Panic (IndexOutOfRange 1 1))
    ∧ match p with Some l' => l' = l | None => σ !! l = None end
    ∧ is_Some (Log b) ∧ is_Some (HTTPClient b) ∧ is_Some (ResponseHandler b)
    ∧ OutCh b = OutCh b0.
Proof.
  intros Hs Hex.
  destruct (NewEndpointClient_supplied url hs connect evs isED p σ b0 Hs) as (l & Hrun & Hp).
  assert (convertToMapAndSanitize hs = Panic (IndexOutOfRange 1 1)) as Hpanic.
  { unfold convertToMapAndSanitize.
    destruct (for_range_sanitize_outcome hs ∅) as [[Hall _]|[_ ->]]; [|done].
    exfalso. apply Exists_exists in Hex as (h & Hin & Hno).
    rewrite Forall_forall in Hall. by apply Hno, Hall. }
  rewrite Hpanic in Hrun. simpl in Hrun.
  eexists l, _. split; [exact Hrun|]. split_and!; try done; by eexists.
Qed.

Lemma NewEndpointClient_panic_after_defaults_witness :
  ∃ b, (NewEndpointClient example_URL ["Bad-Header"] false ["*"] false (Some 7)
          {[ 7 := mkConfig None None None (Some 1) ]}).1 !! 7 = Some b
       ∧ is_Some (Log b) ∧ is_Some (HTTPClient b).
Proof.
  destruct (NewEndpointClient_panic_after_defaults example_URL ["Bad-Header"] false ["*"]
              false (Some 7) {[ 7 := mkConfig None None None (Some 1) ]}
              (mkConfig None None None (Some 1)))
    as (l & b & Hrun & <- & Hl & Hc & _).
  - reflexivity.
  - apply Exists_cons_hd. intros H. apply (bool_decide_pack _) in H. vm_compute in H. exact H.
  - exists b. rewrite Hrun. simpl. rewrite lookup_insert_eq. done.
Defined.

(** X18: a bundle given to the constructor a second time is not changed
    again, and the two clients share it: both point to the caller's bundle. *)
Theorem NewEndpointClient_shares_bundle (url url' : string) (hs hs' : list string)
    (connect connect' : bool) (evs evs' : list string) (isED isED' : bool)
    (l : loc) (σ σ1 σ2 : Store) (c1 c2 : EndpointClient) :
  NewEndpointClient url hs connect evs isED (Some l) σ = (σ1, Done c1) →
  NewEndpointClient url' hs' connect' evs' isED' (Some l) σ1 = (σ2, Done c2) →
  σ2 = σ1 ∧ cfg c1 = Some l ∧ cfg c2 = Some l
  ∧ bundle_of σ2 c2 = bundle_of σ1 c1 ∧ is_Some (bundle_of σ1 c1).
Proof.
  intros H1 H2.
  destruct (NewEndpointClient_Done _ _ _ _ _ _ _ _ _ H1)
    as (b0 & l1 & hm1 & Hs1 & <- & Hhm1 & -> & _ & _).
  destruct (NewEndpointClient_supplied url hs connect evs isED (Some l) σ b0 Hs1)
    as (l1 & Hrun1 & <-).
  rewrite H1, Hhm1 in Hrun1. simpl in Hrun1. injection Hrun1 as ->.
  match type of H2 with context [<[l := ?b]> σ] => set (b1 := b) in * end.
  destruct (NewEndpointClient_supplied url' hs' connect' evs' isED' (Some l) (<[l := b1]> σ) b1)
    as (l2 & Hrun2 & <-); [apply lookup_insert_eq|].
  rewrite H2 in Hrun2. destruct (convertToMapAndSanitize hs') as [hm2| |]; try done.
  subst b1. simpl in Hrun2. rewrite insert_insert_eq in Hrun2.
  injection Hrun2 as -> ->.
  unfold bundle_of. simpl. rewrite lookup_insert_eq.
  split_and!; try done; by eexists.
Qed.

Lemma NewEndpointClient_shares_bundle_witness :
  let σ1 := (NewEndpointClient example_URL [] false ["*"] false (Some 7)
               {[ 7 := mkConfig None None None (Some 1) ]}).1 in
  (NewEndpointClient example_URL ["X-Foo: 2"] true [] true (Some 7) σ1).1 = σ1.
Proof.
  intros σ1.
  destruct (NewEndpointClient_shares_bundle example_URL example_URL [] ["X-Foo: 2"]
              false true ["*"] [] false true 7
              {[ 7 := mkConfig None None None (Some 1) ]} σ1
              (NewEndpointClient example_URL ["X-Foo: 2"] true [] true (Some 7) σ1).1
              (mkEndpointClient example_URL ∅ false (convertToMap ["*"]) (Some 7) false)
              (mkEndpointClient example_URL {[ "X-Foo" := "2" ]} true (convertToMap [])
                                (Some 7) true))
    as (H & _).
  - vm_compute. reflexivity.
  - vm_compute. reflexivity.
  - exact H.
Defined.

(** X19: clients built without a bundle do not share one: the second
    constructor call makes a bundle of its own and leaves the bundle of the
    first client, and every bundle that was in the heap, as it was. *)
Theorem NewEndpointClient_fresh_bundles (url url' : string) (hs hs' : list string)
    (connect connect' : bool) (evs evs' : list string) (isED isED' : bool)
    (σ σ1 σ2 : Store) (c1 c2 : EndpointClient) :
  NewEndpointClient url hs connect evs isED None σ = (σ1, Done c1) →
  NewEndpointClient url' hs' connect' evs' isED' None σ1 = (σ2, Done c2) →
  cfg c1 ≠ cfg c2
  ∧ is_Some (bundle_of σ1 c1) ∧ bundle_of σ2 c1 = bundle_of σ1 c1
  ∧ is_Some (bundle_of σ2 c2)
  ∧ ∀ l, is_Some (σ !! l) → σ2 !! l = σ !! l.
Proof.
  intros H1 H2.
  destruct (NewEndpointClient_Done _ _ _ _ _ _ _ _ _ H1)
    as (_ & l1 & hm1 & _ & Hf1 & _ & -> & Hin1 & Hout1).
  destruct (NewEndpointClient_Done _ _ _ _ _ _ _ _ _ H2)
    as (_ & l2 & hm2 & _ & Hf2 & _ & -> & Hin2 & Hout2).
  assert (l1 ≠ l2) as Hne.
  { intros ->. rewrite Hf2 in Hin1. by destruct Hin1. }
  unfold bundle_of. simpl. split_and!; try done.
  - congruence.
  - by apply Hout2.
  - intros l Hl. assert (l ≠ l1) by (intros ->; rewrite Hf1 in Hl; by destruct Hl).
    assert (l ≠ l2).
    { intros ->. rewrite <- (Hout1 l2) in Hl by done. rewrite Hf2 in Hl. by destruct Hl. }
    by rewrite Hout2, Hout1.
Qed.

Lemma NewEndpointClient_fresh_bundles_witness :
  let σ1 := (NewEndpointClient example_URL [] false ["*"] false None ∅).1 in
  let σ2 := (NewEndpointClient example_URL [] true [] false None σ1).1 in
  σ2 !! 0 = σ1 !! 0 ∧ is_Some (σ2 !! 1).
Proof.
  intros σ1 σ2.
  destruct (NewEndpointClient_fresh_bundles example_URL example_URL [] [] false true
              ["*"] [] false false ∅ σ1 σ2
              (mkEndpointClient example_URL ∅ false (convertToMap ["*"]) (Some 0) false)
              (mkEndpointClient example_URL ∅ true (convertToMap []) (Some 1) false))
    as (_ & _ & H1 & H2 & _).
  - vm_compute. reflexivity.
  - vm_compute. reflexivity.
  - split; [exact H1 | exact H2].
Defined.

(** ** Routing *)

(** X20: a client the constructor returned answers for an event type by the
    list of event types and the mode it was built with, and for a context by
    that mode; its URL is the text it was given, which the constructor does
    not parse. *)
Theorem constructed_client_routing (url : string) (hs : list string) (connect0 : bool)
    (evs : list string) (isED : bool) (p : option loc) (σ σ' : Store) (c : EndpointClient) :
  NewEndpointClient url hs connect0 evs isED p σ = (σ', Done c) →
  (∀ requestMode eventType,
     SupportsEventType c requestMode eventType = true ↔
     requestMode = connect0 ∧ ("*" ∈ evs ∨ eventType ∈ evs))
  ∧ (∀ context,
       SupportsContext c context = true ↔ (connect0 = true ↔ context ≠ EmptyString))
  ∧ URL c = url ∧ isEventDestination c = isED.
Proof.
  intros Hrun.
  destruct (NewEndpointClient_Done _ _ _ _ _ _ _ _ _ Hrun)
    as (_ & l & hm & _ & _ & _ & -> & _).
  split_and!; try done.
  - intros requestMode eventType.
    by rewrite (SupportsEventType_of_list _ evs).
  - intros context. unfold SupportsContext. simpl.
    destruct connect0; destruct (String.eqb_spec context EmptyString); simpl;
      intuition congruence.
Qed.

Lemma constructed_client_routing_witness :
  let c := mkEndpointClient "not a URL" ∅ true (convertToMap ["charge.succeeded"]) (Some 0) false in
  SupportsEventType c true "charge.succeeded" = true ↔
  true = true ∧ ("*" ∈ ["charge.succeeded"] ∨ "charge.succeeded" ∈ ["charge.succeeded"]).
Proof.
  intros c.
  destruct (constructed_client_routing "not a URL" [] true ["charge.succeeded"] false None ∅
              (NewEndpointClient "not a URL" [] true ["charge.succeeded"] false None ∅).1 c)
    as (H & _).
  - vm_compute. reflexivity.
  - apply H.
Defined.

(** X21: the two modes do not overlap: no client supports an event type in
    both modes; of a connect client and a direct client exactly one supports
    a given context; and for an event whose mode says whether it has a
    context, a client that supports its type supports its context. *)
Theorem routing_modes_partition (c c' : EndpointClient) (eventType context : string) :
  SupportsEventType c true eventType && SupportsEventType c false eventType = false
  ∧ (connect c' = negb (connect c) →
     SupportsContext c' context = negb (SupportsContext c context))
  ∧ (SupportsEventType c (negb (String.eqb context EmptyString)) eventType = true →
     SupportsContext c context = true).
Proof.
  unfold SupportsEventType, SupportsContext. split_and!.
  - destruct (connect c); simpl; [apply andb_false_r | done].
  - intros ->. by destruct (connect c), (String.eqb context EmptyString).
  - destruct (connect c), (String.eqb context EmptyString); simpl; done.
Qed.

(** ** The defaults at work *)


